(** * VideoStitcher: a shallow embedding of [videostitcher.py]

    The script picks video clips and one audio track, loops the clips until
    they cover the audio, trims the result, and exports an MP4 whose name is
    made collision free on the desktop.

    Modelling conventions.
    - A Python [str] is a Rocq [string]; a character stands for a code point
      below 256.
    - A Python [int] is a [Z]; a Python [float] is an IEEE 754 binary64
      number, the [spec_float] of the standard library at precision 53,
      with its rounding, its signed zeros, its infinities and its NaN.
    - The file system is the finite set of the paths that exist.
    - The calls into the GUI toolkit, the media library and the operating
      system are events of a trace; what they answer is read from an
      environment record.
    - A call that the source wraps in [try] may raise.  Outside a [try],
      the model has the exceptions of [input] (end of input) and of line 123
      (the division and [math.ceil]); they leave [main].  The other calls
      outside a [try] (the dialogs, the preview, the media library's
      [concatenate_videoclips], [subclip] and [close]) are taken to
      return. *)

From Stdlib Require Import Ascii QArith Qround Qminmax Floats.SpecFloat.
From stdpp Require Import base gmap sets list strings pretty.
Close Scope Q_scope.

(** ** Python strings *)

Module Str.

(** [s.rfind(c)] for a one character needle: the highest index holding
    [c], or [-1]. *)
Fixpoint rfind (c : ascii) (s : string) : Z :=
  match s with
  | EmptyString => -1
  | String a s' =>
      let r := rfind c s' in
      if (0 <=? r)%Z then (r + 1)%Z
      else if bool_decide (a = c) then 0%Z else (-1)%Z
  end.

(** [s[:n]] and [s[n:]] for an index [0 <= n]. *)
Fixpoint take (n : nat) (s : string) : string :=
  match n, s with
  | S n', String a s' => String a (take n' s')
  | _, _ => EmptyString
  end.

Fixpoint drop (n : nat) (s : string) : string :=
  match n, s with
  | S n', String _ s' => drop n' s'
  | _, _ => s
  end.

Definition slice_to (n : Z) (s : string) : string := take (Z.to_nat n) s.
Definition slice_from (n : Z) (s : string) : string := drop (Z.to_nat n) s.

(** [s[i:i+1]] for [0 <= i]: the character at [i], or the empty string. *)
Definition slice1 (i : Z) (s : string) : string := take 1 (slice_from i s).

(** [s.startswith(c)], [s.endswith(c)] for a one character [c]. *)
Definition startswith (c : ascii) (s : string) : bool :=
  match s with
  | String a _ => bool_decide (a = c)
  | EmptyString => false
  end.

Fixpoint endswith (c : ascii) (s : string) : bool :=
  match s with
  | EmptyString => false
  | String a EmptyString => bool_decide (a = c)
  | String _ s' => endswith c s'
  end.

(** [c.isspace()] on the code points below 256: TAB, LF, VT, FF, CR,
    FS, GS, RS, US, SPACE, NEL (133) and NBSP (160). *)
Definition isspace (c : ascii) : bool :=
  let n := nat_of_ascii c in
  ((9 <=? n) && (n <=? 13)) || ((28 <=? n) && (n <=? 32))
  || (n =? 133) || (n =? 160).

(** [s.lstrip()], [s.rstrip()], [s.strip()] *)
Fixpoint lstrip (s : string) : string :=
  match s with
  | String a s' => if isspace a then lstrip s' else s
  | EmptyString => EmptyString
  end.

Fixpoint rstrip (s : string) : string :=
  match s with
  | EmptyString => EmptyString
  | String a s' =>
      match rstrip s' with
      | EmptyString => if isspace a then EmptyString else String a EmptyString
      | r => String a r
      end
  end.

Definition strip (s : string) : string := rstrip (lstrip s).

(** [s.lower()] on the code points below 256: [A-Z] and the accented
    capitals 192..222 (but the multiplication sign 215) move up by 32. *)
Definition lower_char (c : ascii) : ascii :=
  let n := nat_of_ascii c in
  if ((65 <=? n) && (n <=? 90))
     || ((192 <=? n) && (n <=? 222) && negb (n =? 215))
  then ascii_of_nat (n + 32) else c.

Fixpoint lower (s : string) : string :=
  match s with
  | EmptyString => EmptyString
  | String a s' => String (lower_char a) (lower s')
  end.

(** [x or y] on strings: the empty string is falsy. *)
Definition or_else (x y : string) : string :=
  match x with EmptyString => y | _ => x end.

(** [needle in s] *)
Fixpoint prefix_of (needle s : string) : bool :=
  match needle, s with
  | EmptyString, _ => true
  | String a n', String b s' => bool_decide (a = b) && prefix_of n' s'
  | String _ _, EmptyString => false
  end.

Fixpoint contains (needle s : string) : bool :=
  prefix_of needle s
  || match s with
     | EmptyString => false
     | String _ s' => contains needle s'
     end.

(** The characters of a string, for statements about all of them. *)
Fixpoint chars (s : string) : list ascii :=
  match s with
  | EmptyString => []
  | String a s' => a :: chars s'
  end.

End Str.

(** ** [os.path] on POSIX *)

Module Path.

Definition sep : ascii := "/"%char.
Definition extsep : ascii := "."%char.

(** [posixpath.join(a, b)] *)
Definition join (a b : string) : string :=
  if Str.startswith sep b then b
  else if bool_decide (a = "") || Str.endswith sep a then a +:+ b
  else a +:+ String sep b.

(** [posixpath.basename(p)]: [p[p.rfind('/') + 1:]] *)
Definition basename (p : string) : string :=
  Str.slice_from (Str.rfind sep p + 1) p.

(** The [while filenameIndex < dotIndex] loop of [genericpath._splitext]:
    [true] when a character other than the dot is met before [dotIndex]
    (the loop returns the split), [false] when the index reaches
    [dotIndex] (only leading dots: the loop falls through). *)
Fixpoint skip_dots (fuel : nat) (p : string) (filenameIndex dotIndex : Z)
  : bool :=
  match fuel with
  | O => false
  | S fuel' =>
      if (filenameIndex <? dotIndex)%Z then
        if bool_decide (Str.slice1 filenameIndex p ≠ String extsep "")
        then true
        else skip_dots fuel' p (filenameIndex + 1) dotIndex
      else false
  end.

(** [posixpath.splitext(p)] *)
Definition splitext (p : string) : string * string :=
  let sepIndex := Str.rfind sep p in
  let dotIndex := Str.rfind extsep p in
  if (sepIndex <? dotIndex)%Z
     && skip_dots (String.length p) p (sepIndex + 1) dotIndex
  then (Str.slice_to dotIndex p, Str.slice_from dotIndex p)
  else (p, "").

End Path.

(** ** Safe save path (lines 55-64) *)

(** The file system: the paths for which [os.path.exists] answers [True]. *)
Abbreviation filesystem := (gset string).

(** [f"{root}-{i}{ext}"] *)
Definition numbered (root ext : string) (i : Z) : string :=
  root +:+ "-" +:+ pretty i +:+ ext.

(** The loop of lines 61-63.  [fuel] bounds the number of existence tests;
    [None] stands for a loop that is still running when the fuel is spent. *)
Fixpoint safe_save_loop (fuel : nat) (fs : filesystem) (root ext : string)
  (candidate : string) (i : Z) : option string :=
  match fuel with
  | O => None
  | S fuel' =>
      if decide (candidate ∈ fs)
      then safe_save_loop fuel' fs root ext (numbered root ext i) (i + 1)
      else Some candidate
  end.

Definition default_name : string := "Untitled music video".

(** Line 57: [base_name.strip() or "Untitled music video"] *)
Definition resolved_name (base_name : string) : string :=
  Str.or_else (Str.strip base_name) default_name.

(** Line 58: [os.path.join(desktop, f"{name}{extension}")] *)
Definition first_candidate (desktop base_name extension : string) : string :=
  Path.join desktop (resolved_name base_name +:+ extension).

(** [safe_save_path], with [desktop] the value of
    [os.path.expanduser("~/Desktop")] and [fs] the file system. *)
Definition safe_save_path_fuel (fuel : nat) (desktop : string)
  (fs : filesystem) (base_name extension : string) : option string :=
  let candidate := first_candidate desktop base_name extension in
  let '(root, ext) := Path.splitext candidate in
  safe_save_loop fuel fs root ext candidate 1.

(** One existence test per existing path, and one more, are enough (see
    [safe_save_path_fuel_enough]); the function is total. *)
Definition safe_save_path (desktop : string) (fs : filesystem)
  (base_name extension : string) : string :=
  default (first_candidate desktop base_name extension)
    (safe_save_path_fuel (S (size fs)) desktop fs base_name extension).

(** ** Numbers *)

(** Python floats: binary64, every operation rounded to nearest, ties to
    even.  The floats the outside hands over are meant to be the canonical
    representations ([valid_binary]); the operations keep them so, and the
    properties below hold for every [spec_float]. *)
Module Float.

Definition prec : Z := 53.
Definition emax : Z := 1024.

(** [0.0], the start of [total_dur]; the [int] zero of the script ([x or 0],
    [total_dur <= 0]) is only ever added to a float, divided by one,
    compared with one or printed with two decimals, where it acts as
    [0.0]. *)
Definition zero : spec_float := S754_zero false.

Definition add : spec_float → spec_float → spec_float := SFadd prec emax.
Definition mul : spec_float → spec_float → spec_float := SFmul prec emax.
Definition div : spec_float → spec_float → spec_float := SFdiv prec emax.

(** [x <= y] and [x < y]; both are false when an operand is NaN. *)
Definition leb : spec_float → spec_float → bool := SFleb.
Definition ltb : spec_float → spec_float → bool := SFltb.

(** [float(n)]. *)
Definition of_Z (n : Z) : spec_float := binary_normalize prec emax n 0 false.

(** The float a decimal literal denotes, for a literal whose digits [n] and
    power of ten [d] are below [2 ^ 53]: [0.1] is [decimal 1 10]. *)
Definition decimal (n d : Z) : spec_float := div (of_Z n) (of_Z d).

(** [x == 0], the falsy floats. *)
Definition is_zero (x : spec_float) : bool :=
  match x with
  | S754_zero _ => true
  | _ => false
  end.

Definition is_nan (x : spec_float) : bool :=
  match x with
  | S754_nan => true
  | _ => false
  end.

(** Neither NaN nor an infinity. *)
Definition is_finite (x : spec_float) : bool :=
  match x with
  | S754_zero _ | S754_finite _ _ _ => true
  | _ => false
  end.

(** The number a finite float stands for. *)
Definition to_Q (x : spec_float) : Q :=
  match x with
  | S754_finite s m e =>
      let n := if s then Z.neg m else Z.pos m in
      if (0 <=? e)%Z then inject_Z (n * 2 ^ e)
      else Qmake n (2 ^ Z.to_pos (- e))
  | _ => 0%Q
  end.

(** [math.ceil(x)]: the least integer not below [x]; [ValueError] on NaN,
    [OverflowError] on an infinity. *)
Definition ceil (x : spec_float) : string + Z :=
  match x with
  | S754_nan => inl "ValueError"
  | S754_infinity _ => inl "OverflowError"
  | _ => inr (Qceiling (to_Q x))
  end.

End Float.

(** [x or 0] on a float: [0.0] and [-0.0] are falsy. *)
Definition or0 (x : spec_float) : spec_float :=
  if Float.is_zero x then Float.zero else x.

(** Line 123: [max(1, math.ceil(audio_dur / total_dur))].  The division
    raises [ZeroDivisionError] on a zero divisor, whatever the dividend, and
    [math.ceil] raises on a quotient that is not finite. *)
Definition loop_count (audio_dur total_dur : spec_float) : string + Z :=
  if Float.is_zero total_dur then inl "ZeroDivisionError"
  else match Float.ceil (Float.div audio_dur total_dur) with
       | inl exn => inl exn
       | inr n => inr (Z.max 1 n)
       end.

(** ** Clips and the sequence builder (lines 123-130) *)

(** What [VideoFileClip(p).without_audio()] gives: the [index]-th clip that
    was opened, its file, and its [duration] attribute (the reader of the
    media library raises when it cannot read a duration, so the attribute
    of a file clip is a number). *)
Record clip := Clip {
  clip_index : nat;
  clip_path : string;
  clip_duration : spec_float
}.

(** A composed video: the clips played in order, and its [duration]. *)
Record video := Video {
  video_clips : list clip;
  video_duration : spec_float
}.

(** [l * n] on a Python list: [n] copies of [l] in a row, none if
    [n <= 0]. *)
Definition list_mul {A} (l : list A) (n : Z) : list A :=
  mjoin (replicate (Z.to_nat n) l).

(** [concatenate_videoclips(seq, method="compose")] of the media library:
    the clips start at the running sums [0, d1, d1 + d2, ...] of their
    durations, added one after the other as floats, and the last sum is the
    duration of the result. *)
Definition concatenate_videoclips (seq : list clip) : video :=
  Video seq (foldl (λ t c, Float.add t (clip_duration c)) Float.zero seq).

(** [v.subclip(0, t_end)] of the media library: a negative [t_end] counts
    from the end of the clip; the duration becomes [t_end - 0], which is
    [t_end]. *)
Definition subclip0 (v : video) (t_end : spec_float) : video :=
  let t_end' :=
    if Float.ltb t_end Float.zero then Float.add (video_duration v) t_end
    else t_end in
  Video (video_clips v) t_end'.

(** Lines 127-130; [a > b] is [b < a]. *)
Definition build_sequence (clips : list clip) (loops : Z)
  (audio_dur : spec_float) : video :=
  let seq := list_mul clips loops in
  let final_video := concatenate_videoclips seq in
  if Float.ltb audio_dur (video_duration final_video)
  then subclip0 final_video audio_dur
  else final_video.

(** ** The world the script runs in *)

(** A piece of a printed line: text, or a number shown as [{x:.2f}]. *)
Inductive piece :=
| Txt (s : string)
| Fix2 (x : spec_float).

Abbreviation line := (list piece).

(** The media handles of the run. *)
Inductive handle :=
| VideoHandle (c : clip)
| AudioHandle (path : string).

Global Instance float_eq_dec : EqDecision spec_float.
Proof. solve_decision. Defined.
Global Instance clip_eq_dec : EqDecision clip.
Proof. solve_decision. Defined.
Global Instance handle_eq_dec : EqDecision handle.
Proof. solve_decision. Defined.

(** What the script does to the outside, in order. *)
Inductive event :=
| Print (l : line)                          (* [print(l)] *)
| Input (prompt : line) (answer : option string)
                                            (* [input(prompt)] *)
| Dialog (title : string) (multiple : bool) (* a file dialog was shown *)
| Open (h : handle)                         (* a file clip was created *)
| Export (v : video) (audio : string) (path : string) (ok : bool)
                                            (* [write_videofile] *)
| Preview (arg : string)                    (* [qlmanage -p arg] *)
| Close (h : handle)                        (* [h.close()] *)
| CloseFinalVideo                           (* [final_video.close()] *)
| CloseFinal.                               (* [final.close()] *)

(** What the outside answers.  An [input] that finds the standard input at
    its end answers [None]. *)
Record env := Env {
  platform : string;                  (* [sys.platform] *)
  desktop : string;                   (* [os.path.expanduser("~/Desktop")] *)
  disk : gset string;                 (* the existing paths *)
  askopenfilenames : list string;     (* the video dialog *)
  confirm_answer : option string;     (* the first [input] *)
  VideoFileClip : string → string + spec_float;
      (* per path: the text of the exception, or the duration *)
  askopenfilename : string;           (* the audio dialog; empty: cancelled *)
  AudioFileClip : string → string + spec_float;
  name_answer : option string;        (* the second [input] *)
  write_videofile : string → option string
      (* per output path: the text of the exception, if one is raised *)
}.

(** Where [main] ends.  [Uncaught] is an exception that leaves [main]. *)
Inductive outcome :=
| Success            (* falls off the end, line 150 *)
| UserCancelled      (* lines 77, 80, 102 *)
| LoadError          (* lines 92, 110 *)
| EmptyContentError  (* line 96 *)
| ExportError        (* line 139 *)
| Uncaught (exn : string).

(** ** The monad of [main]: a trace, and [return] out of the function *)

(** A computation either goes on with a value or has left [main] through a
    [return]; in both cases it has added events to the trace. *)
Inductive step (A : Type) :=
| Next (a : A)
| Return (o : outcome).
Global Arguments Next {A} a.
Global Arguments Return {A} o.

Definition M (A : Type) : Type := step A * list event.

Global Instance M_ret : MRet M := λ A a, (Next a, []).
Global Instance M_bind : MBind M := λ A B f m,
  match m with
  | (Next a, tr) => let '(r, tr') := f a in (r, tr ++ tr')
  | (Return o, tr) => (Return o, tr)
  end.

Definition emit (ev : event) : M unit := (Next (), [ev]).
Definition finish {A} (o : outcome) : M A := (Return o, []).
Definition print (l : line) : M unit := emit (Print l).
(** [input(prompt)]: the line that was typed, or [EOFError], which nothing
    in the script catches. *)
Definition input (prompt : line) (answer : option string) : M string :=
  emit (Input prompt answer);;
  match answer with
  | Some s => mret s
  | None => finish (Uncaught "EOFError")
  end.

(** The line feed, and [s * n] on a string. *)
Definition nl : string := String "010"%char "".

Fixpoint str_mul (s : string) (n : nat) : string :=
  match n with
  | O => ""
  | S n' => s +:+ str_mul s n'
  end.

(** ** File picker (lines 17-50) *)

(** Lines 48-49; the bullet is kept as the bytes of the source file. *)
Fixpoint print_selected (paths : list string) : M unit :=
  match paths with
  | [] => mret ()
  | p :: rest =>
      print [Txt ("  â€¢ " +:+ Path.basename p)];; print_selected rest
  end.

(** [pick_files(prompt, allow_multiple)].  The directory the dialog starts
    in is not part of the model. *)
Definition pick_files (e : env) (prompt : string) (allow_multiple : bool)
  : M (list string) :=
  emit (Dialog prompt allow_multiple);;
  let paths :=
    if allow_multiple then askopenfilenames e
    else match askopenfilename e with
         | EmptyString => []
         | path => [path]
         end in
  match paths with
  | [] => print [Txt "Cancelled by user."];; mret []
  | _ =>
      print [Txt ("Selected " +:+ pretty (length paths) +:+ " file(s):")];;
      print_selected paths;;
      mret paths
  end.

(** ** [shlex.quote] *)

Definition shlex_safe (c : ascii) : bool :=
  let n := nat_of_ascii c in
  ((48 <=? n) && (n <=? 57)) || ((65 <=? n) && (n <=? 90))
  || ((97 <=? n) && (n <=? 122))
  || bool_decide (c ∈ Str.chars "_@%+=:,./-").

Definition squote : string := "'".
Definition dquote : string := String "034"%char "".

Fixpoint shlex_escape (s : string) : string :=
  match s with
  | EmptyString => ""
  | String a s' =>
      (if bool_decide (String a "" = squote)
       then squote +:+ dquote +:+ squote +:+ dquote +:+ squote
       else String a "") +:+ shlex_escape s'
  end.

Definition shlex_quote (s : string) : string :=
  match s with
  | EmptyString => squote +:+ squote
  | _ =>
      if forallb shlex_safe (Str.chars s) then s
      else squote +:+ shlex_escape s +:+ squote
  end.

(** ** Main workflow (lines 69-150) *)

(** Lines 85-92, from the state the loop is in: [clips] and [total_dur].
    The progress bar around the iteration is not part of the model. *)
Fixpoint load_videos (e : env) (video_paths : list string)
  (clips : list clip) (total_dur : spec_float)
  : M (list clip * spec_float) :=
  match video_paths with
  | [] => mret (clips, total_dur)
  | p :: rest =>
      match VideoFileClip e p with
      | inr d =>
          let c := Clip (length clips) p d in
          emit (Open (VideoHandle c));;
          load_videos e rest (clips ++ [c]) (Float.add total_dur (or0 d))
      | inl exn =>
          print [Txt (nl +:+ "Error loading " +:+ Path.basename p
                      +:+ " -> " +:+ exn)];;
          finish LoadError
      end
  end.

(** Lines 145-146. *)
Fixpoint close_clips (clips : list clip) : M unit :=
  match clips with
  | [] => mret ()
  | c :: rest => emit (Close (VideoHandle c));; close_clips rest
  end.

Definition banner : string := str_mul "=" 70.

Definition main (e : env) : M unit :=
  print [Txt (nl +:+ banner)];;
  print [Txt "   VIDEO + AUDIO STITCHER - TKINTER VERSION"];;
  print [Txt (banner +:+ nl)];;
  (* video selection *)
  video_paths ← pick_files e "Select video clips (order matters)" true;
  if bool_decide (video_paths = []) then finish UserCancelled else
  answer ← input [Txt (nl +:+ "Proceed with " +:+ pretty (length video_paths)
                       +:+ " video(s)? (y/n): ")] (confirm_answer e);
  if bool_decide (Str.lower answer ≠ "y") then finish UserCancelled else
  print [Txt (nl +:+ "Loading videos...")];;
  '(clips, total_dur) ← load_videos e video_paths [] Float.zero;
  if Float.leb total_dur Float.zero
  then print [Txt "Video content is empty."];; finish EmptyContentError else
  print [Txt "Total video length: "; Fix2 total_dur; Txt " seconds"];;
  (* audio selection *)
  audio_paths ← pick_files e "Select ONE audio file" false;
  match audio_paths with
  | [] => finish UserCancelled
  | audio_path :: _ =>
  match AudioFileClip e audio_path with
  | inl exn => print [Txt ("Audio error: " +:+ exn)];; finish LoadError
  | inr d =>
  emit (Open (AudioHandle audio_path));;
  let audio_dur := or0 d in
  print [Txt ("Audio: " +:+ Path.basename audio_path +:+ " (");
         Fix2 audio_dur; Txt " seconds)"];;
  (* output name *)
  let audio_name := (Path.splitext (Path.basename audio_path)).1 in
  let default_name := audio_name +:+ " music video" in
  print [Txt (nl +:+ "Suggested name: " +:+ default_name +:+ ".mp4")];;
  answer ← input [Txt "Enter custom name (or press Enter for default): "]
             (name_answer e);
  let user_input := Str.strip answer in
  let export_name := Str.or_else user_input default_name in
  let output_path := safe_save_path (desktop e) (disk e) export_name ".mp4" in
  print [Txt ("Saving to: " +:+ output_path)];;
  (* loop the video to match the audio *)
  match loop_count audio_dur total_dur with
  | inl exn => finish (Uncaught exn)
  | inr loops =>
  (if (1 <? loops)%Z
   then print [Txt ("Looping video " +:+ pretty loops +:+ " times")]
   else mret ());;
  let final_video := build_sequence clips loops audio_dur in
  (* export *)
  print [Txt (nl +:+ "Exporting...")];;
  match write_videofile e output_path with
  | Some exn =>
      emit (Export final_video audio_path output_path false);;
      print [Txt ("Export error: " +:+ exn)];;
      finish ExportError
  | None =>
      emit (Export final_video audio_path output_path true);;
      print [Txt (nl +:+ "Export complete!")];;
      emit (Preview (shlex_quote output_path));;
      (* cleanup *)
      close_clips clips;;
      emit (Close (AudioHandle audio_path));;
      emit CloseFinalVideo;;
      emit CloseFinal;;
      print [Txt (nl +:+ "Done! Your music video is on Desktop.")]
  end end end end.

(** A run of [main]: where it ends and what it did. *)
Definition run (e : env) : outcome * list event :=
  match main e with
  | (Next _, tr) => (Success, tr)
  | (Return o, tr) => (o, tr)
  end.

(** ** Entry point (lines 155-159) *)

(** The exit status of the process, and its trace.  [sys.exit(1)] gives 1;
    returning from [main] ends the script with 0; an exception that nobody
    catches ends it with 1. *)
Definition entry_point (e : env) : Z * list event :=
  if bool_decide (platform e ≠ "darwin")
  then (1%Z, [Print [Txt "This script only runs on macOS."]])
  else match run e with
       | (Uncaught _, tr) => (1%Z, tr)
       | (_, tr) => (0%Z, tr)
       end.

Definition exit_code (e : env) : Z := (entry_point e).1.

(** ** Reading a trace *)

Definition opened (tr : list event) : list handle :=
  omap (λ ev, match ev with Open h => Some h | _ => None end) tr.

Definition closed (tr : list event) : list handle :=
  omap (λ ev, match ev with Close h => Some h | _ => None end) tr.

(** The handles that were opened and never closed. *)
Definition leaked (tr : list event) : list handle :=
  filter (λ h, h ∉ closed tr) (opened tr).

Definition exports (tr : list event) : list (string * bool) :=
  omap (λ ev, match ev with
              | Export _ _ path ok => Some (path, ok)
              | _ => None
              end) tr.

Definition printed (tr : list event) : list line :=
  omap (λ ev, match ev with Print l => Some l | _ => None end) tr.

(** ** Describing runs *)

(** The definitions from here on are not code of the script: they name what
    the properties below talk about. *)

(** The first [n] paths the loop tests, starting from the unnumbered one. *)
Definition candidates (root ext : string) (n : nat) : list string :=
  match n with
  | O => []
  | S n' => (root +:+ ext) :: (numbered root ext <$> seqZ 1 (Z.of_nat n'))
  end.

(** The exact sum of a list of numbers. *)
Definition Qsum (D : list Q) : Q := foldr Qplus 0%Q D.

(** The durations of a list of clips. *)
Definition durations (clips : list clip) : list spec_float :=
  clip_duration <$> clips.

(** The floats of a list added one after the other, from [start]. *)
Definition running_sum (start : spec_float) (D : list spec_float)
  : spec_float :=
  foldl Float.add start D.

(** Line 89, over the whole list: what the loading loop adds up. *)
Definition total_duration (clips : list clip) : spec_float :=
  running_sum Float.zero (or0 <$> durations clips).

(** The duration [concatenate_videoclips] gives [loops] repetitions of
    [clips]. *)
Definition looped_duration (clips : list clip) (loops : Z) : spec_float :=
  running_sum Float.zero (durations (list_mul clips loops)).

(** What the loading loop does, read off the environment: the clips it
    opens, from index [start] on, and the first path that fails with the
    text of its exception, if one does. *)
Fixpoint load_result (e : env) (start : nat) (video_paths : list string)
  : list clip * option (string * string) :=
  match video_paths with
  | [] => ([], None)
  | p :: rest =>
      match VideoFileClip e p with
      | inr d =>
          let '(clips, failure) := load_result e (S start) rest in
          (Clip start p d :: clips, failure)
      | inl exn => ([], Some (p, exn))
      end
  end.

(** What a dialog answers, as the list [pick_files] makes of it. *)
Definition picked (e : env) (allow_multiple : bool) : list string :=
  if allow_multiple then askopenfilenames e
  else match askopenfilename e with
       | EmptyString => []
       | path => [path]
       end.

Definition bullet (p : string) : event :=
  Print [Txt ("  â€¢ " +:+ Path.basename p)].

Definition pick_trace (title : string) (allow_multiple : bool)
  (paths : list string) : list event :=
  Dialog title allow_multiple ::
  match paths with
  | [] => [Print [Txt "Cancelled by user."]]
  | _ => Print [Txt ("Selected " +:+ pretty (length paths) +:+ " file(s):")]
         :: (bullet <$> paths)
  end.

Definition opens (clips : list clip) : list event :=
  (λ c, Open (VideoHandle c)) <$> clips.

Definition closes (clips : list clip) : list event :=
  (λ c, Close (VideoHandle c)) <$> clips.

Definition video_error (p exn : string) : line :=
  [Txt (nl +:+ "Error loading " +:+ Path.basename p +:+ " -> " +:+ exn)].

Definition audio_error (exn : string) : line := [Txt ("Audio error: " +:+ exn)].

Definition export_error (exn : string) : line := [Txt ("Export error: " +:+ exn)].

Definition video_title : string := "Select video clips (order matters)".

Definition audio_title : string := "Select ONE audio file".

Definition header : list event :=
  [Print [Txt (nl +:+ banner)];
   Print [Txt "   VIDEO + AUDIO STITCHER - TKINTER VERSION"];
   Print [Txt (banner +:+ nl)]].

(** The trace up to the answer to the confirmation prompt. *)
Definition confirmation (e : env) : list event :=
  header ++ pick_trace video_title true (askopenfilenames e)
  ++ [Input [Txt (nl +:+ "Proceed with "
                  +:+ pretty (length (askopenfilenames e))
                  +:+ " video(s)? (y/n): ")] (confirm_answer e)].

(** The trace up to the end of the loading loop, for the clips it opened. *)
Definition loading (e : env) (clips : list clip) : list event :=
  confirmation e ++ [Print [Txt (nl +:+ "Loading videos...")]] ++ opens clips.

(** Lines 114-119. *)
Definition suggested_name (audio_path : string) : string :=
  (Path.splitext (Path.basename audio_path)).1 +:+ " music video".

(** The path of the export, for the line typed at the naming prompt. *)
Definition output_path (e : env) : string :=
  safe_save_path (desktop e) (disk e)
    (Str.or_else (Str.strip (default "" (name_answer e)))
       (suggested_name (askopenfilename e))) ".mp4".

(** The trace from the end of the loading loop up to the answer to the
    naming prompt. *)
Definition naming (e : env) (clips : list clip) (d : spec_float)
  : list event :=
  [Print [Txt "Total video length: "; Fix2 (total_duration clips);
          Txt " seconds"]]
  ++ pick_trace audio_title false [askopenfilename e]
  ++ [Open (AudioHandle (askopenfilename e));
      Print [Txt ("Audio: " +:+ Path.basename (askopenfilename e) +:+ " (");
             Fix2 (or0 d); Txt " seconds)"];
      Print [Txt (nl +:+ "Suggested name: "
                  +:+ suggested_name (askopenfilename e) +:+ ".mp4")];
      Input [Txt "Enter custom name (or press Enter for default): "]
        (name_answer e)].

(** The trace from the end of the loading loop up to the call of
    [write_videofile]. *)
Definition preparation (e : env) (clips : list clip) (d : spec_float)
  (loops : Z) : list event :=
  naming e clips d
  ++ [Print [Txt ("Saving to: " +:+ output_path e)]]
  ++ (if (1 <? loops)%Z
      then [Print [Txt ("Looping video " +:+ pretty loops +:+ " times")]]
      else [])
  ++ [Print [Txt (nl +:+ "Exporting...")]].

(** The ways through [main], one for each place where it ends: what the
    environment answered, where the run ends, and its trace. *)
Inductive RunPath (e : env) : outcome → list event → Prop :=
| path_no_video :
    askopenfilenames e = [] →
    RunPath e UserCancelled
      (header ++ pick_trace video_title true [])
| path_confirm_eof :
    askopenfilenames e ≠ [] →
    confirm_answer e = None →
    RunPath e (Uncaught "EOFError") (confirmation e)
| path_declined a :
    askopenfilenames e ≠ [] →
    confirm_answer e = Some a →
    Str.lower a ≠ "y" →
    RunPath e UserCancelled (confirmation e)
| path_video_error a clips p exn :
    askopenfilenames e ≠ [] →
    confirm_answer e = Some a →
    Str.lower a = "y" →
    load_result e 0 (askopenfilenames e) = (clips, Some (p, exn)) →
    RunPath e LoadError (loading e clips ++ [Print (video_error p exn)])
| path_empty a clips :
    askopenfilenames e ≠ [] →
    confirm_answer e = Some a →
    Str.lower a = "y" →
    load_result e 0 (askopenfilenames e) = (clips, None) →
    Float.leb (total_duration clips) Float.zero = true →
    RunPath e EmptyContentError
      (loading e clips ++ [Print [Txt "Video content is empty."]])
| path_no_audio a clips :
    askopenfilenames e ≠ [] →
    confirm_answer e = Some a →
    Str.lower a = "y" →
    load_result e 0 (askopenfilenames e) = (clips, None) →
    Float.leb (total_duration clips) Float.zero = false →
    askopenfilename e = "" →
    RunPath e UserCancelled
      (loading e clips
       ++ [Print [Txt "Total video length: "; Fix2 (total_duration clips);
                  Txt " seconds"]]
       ++ pick_trace audio_title false [])
| path_audio_error a clips exn :
    askopenfilenames e ≠ [] →
    confirm_answer e = Some a →
    Str.lower a = "y" →
    load_result e 0 (askopenfilenames e) = (clips, None) →
    Float.leb (total_duration clips) Float.zero = false →
    askopenfilename e ≠ "" →
    AudioFileClip e (askopenfilename e) = inl exn →
    RunPath e LoadError
      (loading e clips
       ++ [Print [Txt "Total video length: "; Fix2 (total_duration clips);
                  Txt " seconds"]]
       ++ pick_trace audio_title false [askopenfilename e]
       ++ [Print (audio_error exn)])
| path_name_eof a clips d :
    askopenfilenames e ≠ [] →
    confirm_answer e = Some a →
    Str.lower a = "y" →
    load_result e 0 (askopenfilenames e) = (clips, None) →
    Float.leb (total_duration clips) Float.zero = false →
    askopenfilename e ≠ "" →
    AudioFileClip e (askopenfilename e) = inr d →
    name_answer e = None →
    RunPath e (Uncaught "EOFError") (loading e clips ++ naming e clips d)
| path_count_error a clips d name exn :
    askopenfilenames e ≠ [] →
    confirm_answer e = Some a →
    Str.lower a = "y" →
    load_result e 0 (askopenfilenames e) = (clips, None) →
    Float.leb (total_duration clips) Float.zero = false →
    askopenfilename e ≠ "" →
    AudioFileClip e (askopenfilename e) = inr d →
    name_answer e = Some name →
    loop_count (or0 d) (total_duration clips) = inl exn →
    RunPath e (Uncaught exn)
      (loading e clips ++ naming e clips d
       ++ [Print [Txt ("Saving to: " +:+ output_path e)]])
| path_export_error a clips d name loops exn :
    askopenfilenames e ≠ [] →
    confirm_answer e = Some a →
    Str.lower a = "y" →
    load_result e 0 (askopenfilenames e) = (clips, None) →
    Float.leb (total_duration clips) Float.zero = false →
    askopenfilename e ≠ "" →
    AudioFileClip e (askopenfilename e) = inr d →
    name_answer e = Some name →
    loop_count (or0 d) (total_duration clips) = inr loops →
    write_videofile e (output_path e) = Some exn →
    RunPath e ExportError
      (loading e clips ++ preparation e clips d loops
       ++ [Export (build_sequence clips loops (or0 d)) (askopenfilename e)
             (output_path e) false;
           Print (export_error exn)])
| path_success a clips d name loops :
    askopenfilenames e ≠ [] →
    confirm_answer e = Some a →
    Str.lower a = "y" →
    load_result e 0 (askopenfilenames e) = (clips, None) →
    Float.leb (total_duration clips) Float.zero = false →
    askopenfilename e ≠ "" →
    AudioFileClip e (askopenfilename e) = inr d →
    name_answer e = Some name →
    loop_count (or0 d) (total_duration clips) = inr loops →
    write_videofile e (output_path e) = None →
    RunPath e Success
      (loading e clips ++ preparation e clips d loops
       ++ [Export (build_sequence clips loops (or0 d)) (askopenfilename e)
             (output_path e) true;
           Print [Txt (nl +:+ "Export complete!")];
           Preview (shlex_quote (output_path e))]
       ++ closes clips
       ++ [Close (AudioHandle (askopenfilename e)); CloseFinalVideo;
           CloseFinal;
           Print [Txt (nl +:+ "Done! Your music video is on Desktop.")]]).

(** [name] stands in one of the texts of a printed line. *)
Definition mentions (name : string) (l : line) : bool :=
  existsb (λ pc, match pc with
                 | Txt s => Str.contains name s
                 | Fix2 _ => false
                 end) l.

(** ** Sample environments *)

(** Two clips of ten seconds, a song of twenty-five, an export that works
    (scenario A of the specification). *)
Definition env_success : env := {|
  platform := "darwin";
  desktop := "/Users/me/Desktop";
  disk := ∅;
  askopenfilenames := ["/v/a.mp4"; "/v/b.mp4"];
  confirm_answer := Some "y";
  VideoFileClip := λ _, inr (Float.of_Z 10);
  askopenfilename := "/m/song.mp3";
  AudioFileClip := λ _, inr (Float.of_Z 25);
  name_answer := Some "";
  write_videofile := λ _, None
|}.

Definition with_platform (s : string) (e : env) : env :=
  Env s (desktop e) (disk e) (askopenfilenames e) (confirm_answer e)
    (VideoFileClip e) (askopenfilename e) (AudioFileClip e) (name_answer e)
    (write_videofile e).

Definition with_videos (paths : list string)
  (load : string → string + spec_float)
  (e : env) : env :=
  Env (platform e) (desktop e) (disk e) paths (confirm_answer e) load
    (askopenfilename e) (AudioFileClip e) (name_answer e) (write_videofile e).

Definition with_audio (path : string) (load : string → string + spec_float)
  (e : env) : env :=
  Env (platform e) (desktop e) (disk e) (askopenfilenames e)
    (confirm_answer e) (VideoFileClip e) path load (name_answer e)
    (write_videofile e).

Definition with_export (write : string → option string) (e : env) : env :=
  Env (platform e) (desktop e) (disk e) (askopenfilenames e)
    (confirm_answer e) (VideoFileClip e) (askopenfilename e)
    (AudioFileClip e) (name_answer e) write.

Definition with_name (answer : option string) (fs : gset string) (e : env)
  : env :=
  Env (platform e) (desktop e) fs (askopenfilenames e)
    (confirm_answer e) (VideoFileClip e) (askopenfilename e)
    (AudioFileClip e) answer (write_videofile e).


(** The second video does not load. *)
Definition env_video_error : env :=
  with_videos ["/v/a.mp4"; "/v/b.mp4"]
    (λ p, if bool_decide (p = "/v/b.mp4") then inl "cannot open"
          else inr (Float.of_Z 10))
    env_success.

(** Clips without length. *)
Definition env_empty : env :=
  with_videos ["/v/a.mp4"; "/v/b.mp4"] (λ _, inr Float.zero) env_success.

(** The user closes the audio dialog. *)
Definition env_no_audio : env :=
  with_audio "" (λ _, inr (Float.of_Z 25)) env_success.

(** The audio file does not load. *)
Definition env_audio_error : env :=
  with_audio "/m/song.mp3" (λ _, inl "decoding failed") env_success.

(** The export fails. *)
Definition env_export_error : env :=
  with_export (λ _, Some "encoder failed") env_success.

(** The wrong operating system. *)
Definition env_linux : env := with_platform "linux" env_success.

(** The user names the video ["."], and [..mp4] is on the desktop. *)
Definition env_dotted : env :=
  with_name (Some ".") {["/Users/me/Desktop/..mp4"]} env_success.



(** The standard input ends after the confirmation. *)
Definition env_name_eof : env := with_name None ∅ env_success.


(** Ten clips of [0.1] seconds and an audio track of one second. *)
Definition tenth : spec_float := Float.decimal 1 10.

Definition ten_tenths : list clip :=
  imap (λ i p, Clip i p tenth) (replicate 10 "/v/a.mp4").

(** One clip of [0.1] seconds. *)
Definition one_tenth : list clip := [Clip 0 "/v/a.mp4" tenth].

(** What was handed to [write_videofile]: the video, the audio, the path,
    and whether the call returned. *)
Definition exported (tr : list event) : list (video * string * string * bool) :=
  omap (λ ev, match ev with
              | Export v audio path ok => Some (v, audio, path, ok)
              | _ => None
              end) tr.

(** The arguments the preview utility was started with. *)
Definition previews (tr : list event) : list string :=
  omap (λ ev, match ev with Preview arg => Some arg | _ => None end) tr.

(** * Properties *)

(** ** Strings *)

Section StringFacts.
Implicit Types (s t u : string) (a c : ascii).

Lemma str_app_cons a s t : String a s +:+ t = String a (s +:+ t).
Proof. reflexivity. Qed.

Lemma str_app_nil_l t : "" +:+ t = t.
Proof. reflexivity. Qed.

Lemma str_app_nil_r s : s +:+ "" = s.
Proof. induction s as [|a s IH]; [done|]. by rewrite str_app_cons, IH. Qed.

Lemma str_app_assoc s t u : (s +:+ t) +:+ u = s +:+ t +:+ u.
Proof. induction s as [|a s IH]; [done|]. by rewrite !str_app_cons, IH. Qed.

Lemma str_length_app s t :
  String.length (s +:+ t) = String.length s + String.length t.
Proof. induction s as [|a s IH]; [done|]. rewrite str_app_cons. simpl. lia. Qed.

Lemma str_length_zero s : String.length s = 0 → s = "".
Proof. by destruct s. Qed.

Lemma str_app_inv_tail s1 s2 t : s1 +:+ t = s2 +:+ t → s1 = s2.
Proof.
  revert s2. induction s1 as [|a s1 IH]; intros s2 Heq.
  - apply (f_equal String.length) in Heq. rewrite !str_length_app in Heq.
    symmetry. apply str_length_zero. simpl in Heq. lia.
  - destruct s2 as [|b s2].
    + apply (f_equal String.length) in Heq. rewrite !str_length_app in Heq.
      simpl in Heq. lia.
    + rewrite !str_app_cons in Heq. injection Heq as -> Heq.
      f_equal. by apply IH.
Qed.

Lemma str_take_drop n s : Str.take n s +:+ Str.drop n s = s.
Proof.
  revert s. induction n as [|n IH]; intros [|a s]; simpl; try done.
  by rewrite str_app_cons, IH.
Qed.

Lemma slice_join n s : Str.slice_to n s +:+ Str.slice_from n s = s.
Proof. apply str_take_drop. Qed.

(** [strip] leaves nothing exactly when every character is a space. *)
Lemma lstrip_empty s :
  Str.lstrip s = "" ↔ forallb Str.isspace (Str.chars s) = true.
Proof.
  induction s as [|a s IH]; simpl; [done|].
  destruct (Str.isspace a); simpl; [done|]. split; discriminate.
Qed.

Lemma rstrip_lstrip_empty s : Str.lstrip s = "" → Str.strip s = "".
Proof. unfold Str.strip. by intros ->. Qed.

Lemma rstrip_empty s :
  Str.rstrip s = "" ↔ forallb Str.isspace (Str.chars s) = true.
Proof.
  induction s as [|a s IH]; simpl; [done|].
  destruct (Str.rstrip s) eqn:Hr.
  - destruct (Str.isspace a); simpl; [tauto|]. split; discriminate.
  - split; [discriminate|]. intros [_ H]%andb_prop.
    apply IH in H. discriminate.
Qed.

Lemma lstrip_spaces_suffix s :
  forallb Str.isspace (Str.chars s) = true →
  forallb Str.isspace (Str.chars (Str.lstrip s)) = true.
Proof.
  induction s as [|a s IH]; simpl; [done|].
  destruct (Str.isspace a) eqn:Ha; simpl; [done|discriminate].
Qed.

Lemma lstrip_keeps_nonspace s :
  forallb Str.isspace (Str.chars (Str.lstrip s)) = true →
  forallb Str.isspace (Str.chars s) = true.
Proof.
  induction s as [|a s IH]; simpl; [done|].
  destruct (Str.isspace a) eqn:Ha; simpl; [done|].
  by rewrite Ha.
Qed.

Lemma strip_empty s :
  Str.strip s = "" ↔ forallb Str.isspace (Str.chars s) = true.
Proof.
  unfold Str.strip. rewrite rstrip_empty. split.
  - apply lstrip_keeps_nonspace.
  - apply lstrip_spaces_suffix.
Qed.

(** [contains] is the substring test. *)
Lemma prefix_of_spec needle s :
  Str.prefix_of needle s = true ↔ ∃ t, s = needle +:+ t.
Proof.
  revert s. induction needle as [|a needle IH]; intros s; simpl.
  - split; [intros _; by exists s|done].
  - destruct s as [|b s]; [split; [done|intros [t Ht]; discriminate]|].
    rewrite andb_true_iff, bool_decide_eq_true, IH. split.
    + intros [-> [t ->]]. by exists t.
    + intros [t Ht]. rewrite str_app_cons in Ht. injection Ht as -> ->. eauto.
Qed.

Lemma contains_spec needle s :
  Str.contains needle s = true ↔ ∃ t u, s = t +:+ needle +:+ u.
Proof.
  induction s as [|b s IH].
  - simpl. rewrite orb_false_r, prefix_of_spec. split.
    + intros [u Hu]. by exists "", u.
    + intros [t [u Hu]]. destruct t; [by exists u|discriminate].
  - cbn [Str.contains]. rewrite orb_true_iff, prefix_of_spec, IH. split.
    + intros [[u Hu]|[t [u Hu]]].
      * by exists "", u.
      * exists (String b t), u. by rewrite str_app_cons, Hu.
    + intros [[|a t] [u Hu]].
      * left. by exists u.
      * right. rewrite str_app_cons in Hu. injection Hu as -> ->. eauto.
Qed.

End StringFacts.

(** ** Paths *)

(** The two halves [splitext] returns always spell the path again. *)
Lemma splitext_join p : (Path.splitext p).1 +:+ (Path.splitext p).2 = p.
Proof.
  unfold Path.splitext.
  destruct (_ && _); simpl; [apply slice_join|apply str_app_nil_r].
Qed.

(** ** The candidates of [safe_save_path] *)

Section Candidates.
Context (root ext : string).

Lemma numbered_inj i j : numbered root ext i = numbered root ext j → i = j.
Proof.
  unfold numbered. intros H%(inj (String.app root)).
  rewrite !str_app_cons, !str_app_nil_l in H. injection H as H.
  apply str_app_inv_tail in H. by apply (inj pretty).
Qed.

Lemma numbered_fresh i : numbered root ext i ≠ root +:+ ext.
Proof.
  unfold numbered. intros H%(inj (String.app root)).
  apply (f_equal String.length) in H.
  rewrite str_app_cons, str_app_nil_l in H. simpl in H.
  rewrite str_length_app in H. lia.
Qed.

Lemma candidates_NoDup n : NoDup (candidates root ext n).
Proof.
  destruct n as [|n]; simpl; [constructor|].
  constructor.
  - intros (i & Hi & _)%list_elem_of_fmap. by eapply numbered_fresh.
  - assert (Inj (=) (=) (numbered root ext)) by exact numbered_inj.
    apply (NoDup_fmap_2 _), NoDup_seqZ.
Qed.

Lemma candidates_length n : length (candidates root ext n) = n.
Proof.
  destruct n as [|n]; simpl; [done|].
  rewrite length_fmap, length_seqZ. lia.
Qed.

End Candidates.

Section Loop.
Context (fs : gset string) (root ext : string).

(** A loop that runs out of fuel has only met existing paths. *)
Lemma safe_save_loop_None fuel candidate i :
  safe_save_loop fuel fs root ext candidate i = None →
  ∀ k, (k < fuel)%nat →
    (if decide (k = 0)%nat then candidate
     else numbered root ext (i + Z.of_nat k - 1)) ∈ fs.
Proof.
  revert candidate i. induction fuel as [|fuel IH]; intros c i H k Hk; [lia|].
  simpl in H. destruct (decide (c ∈ fs)) as [Hin|]; [|done].
  destruct k as [|k]; [done|]. simpl.
  specialize (IH _ _ H k ltac:(lia)).
  destruct (decide (k = 0)%nat) as [->|].
  - match goal with
    | |- numbered _ _ ?x ∈ _ => by replace x with i by lia
    end.
  - match goal with
    | |- numbered _ _ ?x ∈ _ =>
        by replace x with (i + 1 + Z.of_nat k - 1)%Z by lia
    end.
Qed.

(** More fuel does not change a result. *)
Lemma safe_save_loop_mono fuel fuel' candidate i p :
  (fuel ≤ fuel')%nat →
  safe_save_loop fuel fs root ext candidate i = Some p →
  safe_save_loop fuel' fs root ext candidate i = Some p.
Proof.
  revert fuel' candidate i.
  induction fuel as [|fuel IH]; intros [|fuel'] c i Hle H; try done; [lia|].
  simpl in *. destruct (decide (c ∈ fs)); [|done].
  apply IH; [lia|done].
Qed.

(** What the loop returns does not exist, and it is the first of the
    paths it tested that does not. *)
Lemma safe_save_loop_Some fuel candidate i p :
  safe_save_loop fuel fs root ext candidate i = Some p →
  (p ∉ fs) ∧
  (((candidate ∉ fs) ∧ p = candidate) ∨
   (candidate ∈ fs ∧ ∃ k, (i ≤ k)%Z ∧ p = numbered root ext k ∧
      ∀ j, (i ≤ j < k)%Z → numbered root ext j ∈ fs)).
Proof.
  revert candidate i. induction fuel as [|fuel IH]; intros c i H; [done|].
  simpl in H. destruct (decide (c ∈ fs)) as [Hin|Hout].
  - apply IH in H as [Hp Hcase]. split; [done|]. right. split; [done|].
    destruct Hcase as [[_ ->]|[Hi (k & Hk & -> & Hall)]].
    + exists i. split; [lia|]. split; [done|]. intros j Hj. lia.
    + exists k. split; [lia|]. split; [done|]. intros j Hj.
      destruct (decide (j = i)) as [->|]; [done|]. apply Hall. lia.
  - injection H as <-. split; [done|]. by left.
Qed.

(** The loop cannot meet more existing paths than there are: with a test
    for each of them and one more, it returns. *)
Lemma safe_save_loop_returns fuel :
  (size fs < fuel)%nat →
  is_Some (safe_save_loop fuel fs root ext (root +:+ ext) 1).
Proof.
  intros Hfuel.
  destruct (safe_save_loop fuel fs root ext (root +:+ ext) 1) eqn:H; [eauto|].
  exfalso.
  assert (list_to_set (candidates root ext fuel) ⊆ fs) as Hsub.
  { intros p Hp%elem_of_list_to_set.
    pose proof (safe_save_loop_None _ _ _ H) as Hall.
    destruct fuel as [|fuel]; simpl in Hp; [by apply elem_of_nil in Hp|].
    apply elem_of_cons in Hp as [->|Hp].
    - apply (Hall 0%nat). lia.
    - apply list_elem_of_fmap in Hp as (j & -> & Hj%elem_of_seqZ).
      specialize (Hall (Z.to_nat j)). 
      destruct (decide (Z.to_nat j = 0)%nat); [lia|].
      replace (1 + Z.of_nat (Z.to_nat j) - 1)%Z with j in Hall by lia.
      apply Hall. lia. }
  apply subseteq_size in Hsub.
  rewrite size_list_to_set in Hsub by apply candidates_NoDup.
  rewrite candidates_length in Hsub. lia.
Qed.

End Loop.

(** The fuel [safe_save_path] gives its loop is enough: it computes what the
    loop returns. *)
Lemma safe_save_path_fuel_enough desktop (fs : gset string) base_name extension :
  safe_save_path_fuel (S (size fs)) desktop fs base_name extension
  = Some (safe_save_path desktop fs base_name extension).
Proof.
  unfold safe_save_path, safe_save_path_fuel.
  pose proof (splitext_join (first_candidate desktop base_name extension)) as Hj.
  destruct (Path.splitext _) as [root ext]. simpl in Hj. rewrite <- Hj.
  destruct (safe_save_loop_returns fs root ext (S (size fs))) as [p Hp]; [lia|].
  by rewrite Hp.
Qed.

(** ** Path resolution *)

(** What [safe_save_path] returns does not exist; when the first candidate
    exists, the result is the numbered path with the least number from 1 on
    that does not exist, the number standing between the two halves
    [splitext] makes of the first candidate. *)
Lemma safe_save_path_first_free desktop (fs : gset string) base_name extension :
  let candidate := first_candidate desktop base_name extension in
  let root := (Path.splitext candidate).1 in
  let ext := (Path.splitext candidate).2 in
  let p := safe_save_path desktop fs base_name extension in
  (p ∉ fs) ∧
  (candidate ∈ fs →
   ∃ k, (1 ≤ k)%Z ∧ p = numbered root ext k ∧
        ∀ j, (1 ≤ j < k)%Z → numbered root ext j ∈ fs).
Proof.
  intros candidate root ext p.
  pose proof (safe_save_path_fuel_enough desktop fs base_name extension) as H.
  unfold safe_save_path_fuel in H. fold candidate in H.
  unfold root, ext. destruct (Path.splitext candidate) as [r x]. simpl.
  apply safe_save_loop_Some in H as [Hp Hcase]. split; [done|].
  intros Hin. destruct Hcase as [[Hout _]|[_ Hk]]; [done|]. exact Hk.
Qed.

(** When the joined path is relative to the desktop directory, the first
    candidate is [desktop/name+extension]. *)
Lemma first_candidate_in_desktop desktop base_name extension :
  desktop ≠ "" →
  Str.endswith Path.sep desktop = false →
  Str.startswith Path.sep (resolved_name base_name +:+ extension) = false →
  first_candidate desktop base_name extension
  = desktop +:+ "/" +:+ resolved_name base_name +:+ extension.
Proof.
  intros Hd He Hs. unfold first_candidate, Path.join. rewrite Hs, He.
  by rewrite bool_decide_eq_false_2.
Qed.

(** Scenario D of the specification. *)
Example safe_save_path_song_1 :
  safe_save_path "/Users/me/Desktop" {["/Users/me/Desktop/Song.mp4"]}
    "Song" ".mp4"
  = "/Users/me/Desktop/Song-1.mp4".
Proof. vm_compute. reflexivity. Qed.

Example safe_save_path_song_2 :
  safe_save_path "/Users/me/Desktop"
    {["/Users/me/Desktop/Song.mp4"; "/Users/me/Desktop/Song-1.mp4"]}
    "Song" ".mp4"
  = "/Users/me/Desktop/Song-2.mp4".
Proof. vm_compute. reflexivity. Qed.

(** C3, at the base name ["."]: the first candidate is [..mp4], a name of
    leading dots only, which [splitext] does not split; the number is put
    after the extension, not before it. *)
Lemma safe_save_path_dotted_name :
  Path.splitext "/Users/me/Desktop/..mp4" = ("/Users/me/Desktop/..mp4", "")
  ∧ safe_save_path "/Users/me/Desktop" {["/Users/me/Desktop/..mp4"]}
      "." ".mp4"
    = "/Users/me/Desktop/..mp4-1".
Proof. split; vm_compute; reflexivity. Qed.

(** C7: a base name that is empty once its white space is trimmed is
    replaced by the literal ["Untitled music video"] before the candidate
    path is built; resolution then goes on as for that name. *)
Theorem default_name_substituted desktop (fs : gset string) base_name extension :
  Str.strip base_name = "" →
  resolved_name base_name = "Untitled music video"
  ∧ first_candidate desktop base_name extension
    = Path.join desktop ("Untitled music video" +:+ extension)
  ∧ safe_save_path desktop fs base_name extension
    = safe_save_path desktop fs "Untitled music video" extension.
Proof.
  intros Hstrip.
  assert (resolved_name base_name = "Untitled music video") as Hname.
  { unfold resolved_name. by rewrite Hstrip. }
  assert (resolved_name "Untitled music video" = "Untitled music video")
    as Hfix by (vm_compute; reflexivity).
  split; [done|]. split.
  - unfold first_candidate. by rewrite Hname.
  - unfold safe_save_path, safe_save_path_fuel, first_candidate.
    by rewrite Hname, Hfix.
Qed.

Lemma default_name_substituted_witness :
  Str.strip "  " = ""
  ∧ safe_save_path "/Users/me/Desktop" ∅ "  " ".mp4"
    = "/Users/me/Desktop/Untitled music video.mp4".
Proof.
  split; [reflexivity|].
  destruct (default_name_substituted "/Users/me/Desktop" ∅ "  " ".mp4")
    as (_ & _ & ->); [reflexivity|].
  vm_compute. reflexivity.
Defined.

(** C8: when the first candidate, [os.path.join(desktop, name + extension)],
    does not exist, it is returned as it is, without a number. *)
Theorem safe_save_path_no_collision desktop (fs : gset string) base_name extension :
  first_candidate desktop base_name extension ∉ fs →
  safe_save_path desktop fs base_name extension
  = first_candidate desktop base_name extension.
Proof.
  intros Hout. unfold safe_save_path, safe_save_path_fuel.
  destruct (Path.splitext _) as [root ext]. simpl.
  by rewrite decide_False.
Qed.

Lemma safe_save_path_no_collision_witness :
  safe_save_path "/Users/me/Desktop" {["/Users/me/Desktop/Other.mp4"]}
    "Song" ".mp4"
  = "/Users/me/Desktop/Song.mp4".
Proof.
  rewrite (safe_save_path_no_collision "/Users/me/Desktop"
             {["/Users/me/Desktop/Other.mp4"]} "Song" ".mp4").
  - vm_compute. reflexivity.
  - vm_compute. intros H. discriminate H.
Defined.

(** C10: over a finite file system path resolution terminates.  The numbered
    candidates are pairwise distinct and differ from the first candidate,
    so the loop returns after at most one existence test per existing path
    and one more: from that much fuel on the result is there, and it is
    what [safe_save_path] computes. *)
Theorem safe_save_path_terminates desktop (fs : gset string) base_name extension :
  let candidate := first_candidate desktop base_name extension in
  let root := (Path.splitext candidate).1 in
  let ext := (Path.splitext candidate).2 in
  (∀ i j, numbered root ext i = numbered root ext j → i = j)
  ∧ (∀ i, numbered root ext i ≠ candidate)
  ∧ ∀ fuel, (size fs < fuel)%nat →
      safe_save_path_fuel fuel desktop fs base_name extension
      = Some (safe_save_path desktop fs base_name extension).
Proof.
  intros candidate root ext. split; [|split].
  - apply numbered_inj.
  - intros i. unfold root, ext.
    rewrite <- (splitext_join candidate) at 3. apply numbered_fresh.
  - intros fuel Hfuel.
    pose proof (safe_save_path_fuel_enough desktop fs base_name extension) as H.
    unfold safe_save_path_fuel in *. fold candidate in H |- *.
    destruct (Path.splitext candidate) as [r x].
    eapply safe_save_loop_mono; [|exact H]. lia.
Qed.

(** ** Floats *)

Section FloatFacts.
Implicit Types x y : spec_float.

Lemma compare_antisym x y : SFcompare y x = CompOpp <$> SFcompare x y.
Proof.
  destruct x as [[]|[]| |[] mx ex], y as [[]|[]| |[] my ey];
    try reflexivity; cbn;
    change (Pos.compare_cont Eq my mx) with (my ?= mx)%positive;
    change (Pos.compare_cont Eq mx my) with (mx ?= my)%positive;
    rewrite (Z.compare_antisym ex ey), (Pos.compare_antisym mx my);
    destruct (ex ?= ey)%Z; cbn; try reflexivity;
    by destruct (mx ?= my)%positive.
Qed.

Lemma compare_refl x : Float.is_nan x = false → SFcompare x x = Some Eq.
Proof.
  destruct x as [[]|[]| |[] m e]; try done; intros _; cbn;
    by rewrite Z.compare_refl, Pos.compare_cont_refl.
Qed.

Lemma ltb_irrefl x : Float.ltb x x = false.
Proof.
  unfold Float.ltb, SFltb. destruct (Float.is_nan x) eqn:Hnan.
  - by destruct x.
  - by rewrite compare_refl.
Qed.

(** Of two numbers, one is below the other or they are equal. *)
Lemma ltb_false_leb x y :
  Float.is_nan x = false → Float.is_nan y = false →
  Float.ltb x y = false → Float.leb y x = true.
Proof.
  unfold Float.ltb, Float.leb, SFltb, SFleb. intros Hx Hy.
  rewrite (compare_antisym x y).
  assert (is_Some (SFcompare x y)) as [c ->].
  { destruct x as [[]|[]| |[] mx ex], y as [[]|[]| |[] my ey];
      try done; cbn; eauto. }
  by destruct c.
Qed.

Lemma leb_ltb_false x y : Float.leb x y = true → Float.ltb y x = false.
Proof.
  unfold Float.ltb, Float.leb, SFltb, SFleb.
  rewrite (compare_antisym x y). destruct (SFcompare x y) as [[]|]; done.
Qed.

Lemma leb_not_nan x y :
  Float.leb x y = true → Float.is_nan x = false ∧ Float.is_nan y = false.
Proof. by destruct x as [[]|[]| |[] mx ex], y as [[]|[]| |[] my ey]. Qed.

(** What passes the test of line 94 is not zero; it is above zero unless it
    is NaN. *)
Lemma leb_zero_false x :
  Float.leb x Float.zero = false →
  Float.is_zero x = false
  ∧ (Float.is_nan x = false → Float.ltb Float.zero x = true).
Proof. by destruct x as [[]|[]| |[] m e]. Qed.

Lemma ltb_zero_true x :
  Float.ltb Float.zero x = true →
  Float.leb x Float.zero = false ∧ Float.is_zero x = false
  ∧ Float.is_nan x = false.
Proof. by destruct x as [[]|[]| |[] m e]. Qed.

Lemma ceil_finite x :
  Float.is_finite x = true → Float.ceil x = inr (Qceiling (Float.to_Q x)).
Proof. by destruct x. Qed.

Lemma ceil_not_finite x :
  Float.is_finite x = false →
  Float.ceil x = inl "ValueError" ∨ Float.ceil x = inl "OverflowError".
Proof. destruct x; try done; intros _; [by right|by left]. Qed.

Lemma ceiling_le_iff (q : Q) (k : Z) :
  (Qceiling q <= k)%Z ↔ (q <= inject_Z k)%Q.
Proof.
  split; intros H.
  - eapply Qle_trans; [apply Qle_ceiling|]. by rewrite <- Zle_Qle.
  - rewrite <- (Qceiling_Z k). by apply Qceiling_resp_le.
Qed.

End FloatFacts.

(** ** Durations *)

Lemma foldl_clip_durations t clips :
  foldl (λ t c, Float.add t (clip_duration c)) t clips
  = running_sum t (durations clips).
Proof.
  revert t. induction clips as [|c clips IH]; intros t; [done|]. apply IH.
Qed.

Lemma concatenate_duration clips loops :
  video_duration (concatenate_videoclips (list_mul clips loops))
  = looped_duration clips loops.
Proof. apply foldl_clip_durations. Qed.

(** ** Loop count and sequence *)

Lemma loop_count_positive T total loops :
  loop_count T total = inr loops → (1 ≤ loops)%Z.
Proof.
  unfold loop_count. destruct (Float.is_zero total); [done|].
  destruct (Float.ceil _); [done|]. intros [= <-]. lia.
Qed.

Lemma loop_count_divides T total :
  Float.is_zero total = false → loop_count T total ≠ inl "ZeroDivisionError".
Proof.
  unfold loop_count. intros ->.
  by destruct (Float.div T total).
Qed.

Lemma list_mul_length {A} (l : list A) (n : Z) :
  length (list_mul l n) = (Z.to_nat n * length l)%nat.
Proof.
  unfold list_mul. induction (Z.to_nat n) as [|m IH]; simpl; [done|].
  by rewrite length_app, IH.
Qed.

(** Every repetition holds the clips in the order of the list. *)
Lemma list_mul_lookup {A} (l : list A) (n : Z) (k j : nat) :
  (Z.of_nat k < n)%Z → (j < length l)%nat →
  list_mul l n !! (k * length l + j)%nat = l !! j.
Proof.
  unfold list_mul. intros Hk Hj.
  assert (k < Z.to_nat n)%nat as Hk' by lia. clear Hk.
  revert k Hk'. induction (Z.to_nat n) as [|m IH]; intros k Hk; [lia|].
  simpl. destruct k as [|k].
  - simpl. by rewrite lookup_app_l.
  - rewrite lookup_app_r by (simpl; lia).
    replace (S k * length l + j - length l)%nat
      with (k * length l + j)%nat by (simpl; lia).
    apply IH. lia.
Qed.

(** C1 fails as it is stated.  Ten clips of [0.1] seconds and an audio
    track of one second: the script adds the ten floats up to
    [0.9999999999999999] and computes 2 loops, where
    [max(1, ceil(T / sum(D)))] over the numbers themselves is 1.  One clip
    of [2 ^ -1000] seconds and an audio track of [2 ^ 1000] seconds: the sum
    is above zero, the quotient is infinite, and [math.ceil] raises instead
    of giving a loop count. *)
Lemma loop_count_not_exact :
  (tenth = S754_finite false 7205759403792794 (-56)
   ∧ Float.ltb Float.zero (total_duration ten_tenths) = true
   ∧ total_duration ten_tenths = S754_finite false 9007199254740991 (-53)
   ∧ Float.div (Float.of_Z 1) (total_duration ten_tenths)
     = S754_finite false 4503599627370497 (-52)
   ∧ loop_count (Float.of_Z 1) (total_duration ten_tenths) = inr 2%Z
   ∧ Z.max 1 (Qceiling (Float.to_Q (Float.of_Z 1)
                        / Qsum (Float.to_Q <$> durations ten_tenths)))
     = 1%Z)
  ∧ (let tiny := [Clip 0 "/v/a.mp4"
                    (Float.div (Float.of_Z 1) (Float.of_Z (2 ^ 1000)))] in
     Float.ltb Float.zero (total_duration tiny) = true
     ∧ Float.is_finite (Float.of_Z (2 ^ 1000)) = true
     ∧ loop_count (Float.of_Z (2 ^ 1000)) (total_duration tiny)
       = inl "OverflowError").
Proof. repeat split; vm_compute; reflexivity. Qed.

(** C1, amended: for every list of clips whose durations the script adds up
    to more than zero and every audio duration [T], the division of line
    123 does not fail; when the quotient [q] of the two floats is finite,
    the loop count is computed and equals [max(1, ceil(q))]: it is at least
    1, and it is the least integer from 1 on that is not below [q]; when
    [q] is infinite or NaN, [math.ceil] raises and no count is computed. *)
Theorem loop_count_spec (clips : list clip) (T : spec_float) :
  Float.ltb Float.zero (total_duration clips) = true →
  let q := Float.div T (total_duration clips) in
  loop_count T (total_duration clips) ≠ inl "ZeroDivisionError"
  ∧ (Float.is_finite q = true →
     ∃ loops,
       loop_count T (total_duration clips) = inr loops
       ∧ loops = Z.max 1 (Qceiling (Float.to_Q q))
       ∧ (1 ≤ loops)%Z
       ∧ (Float.to_Q q <= inject_Z loops)%Q
       ∧ (∀ k, (1 ≤ k)%Z → (Float.to_Q q <= inject_Z k)%Q → (loops ≤ k)%Z))
  ∧ (Float.is_finite q = false →
     loop_count T (total_duration clips) = inl "ValueError"
     ∨ loop_count T (total_duration clips) = inl "OverflowError")
  ∧ (∀ loops, loop_count T (total_duration clips) = inr loops →
       (1 ≤ loops)%Z).
Proof.
  intros Hpos q. apply ltb_zero_true in Hpos as (_ & Hz & _).
  split; [by apply loop_count_divides|].
  unfold loop_count. rewrite Hz. fold q.
  split; [|split].
  - intros Hfin. rewrite (ceil_finite q Hfin).
    exists (Z.max 1 (Qceiling (Float.to_Q q))).
    split; [done|]. split; [done|]. split; [lia|]. split.
    + apply ceiling_le_iff. lia.
    + intros k Hk Hq. apply ceiling_le_iff in Hq. lia.
  - intros Hfin. by destruct (ceil_not_finite q Hfin) as [-> | ->]; [left|right].
  - intros loops. destruct (Float.ceil q); [done|]. intros [= <-]. lia.
Qed.

Lemma loop_count_spec_witness :
  loop_count (Float.of_Z 25)
    (total_duration [Clip 0 "a.mp4" (Float.of_Z 10);
                     Clip 1 "b.mp4" (Float.of_Z 10)])
  = inr 2%Z.
Proof.
  destruct (loop_count_spec
              [Clip 0 "a.mp4" (Float.of_Z 10); Clip 1 "b.mp4" (Float.of_Z 10)]
              (Float.of_Z 25))
    as (_ & Hfin & _); [reflexivity|].
  destruct Hfin as (loops & -> & -> & _); reflexivity.
Defined.

(** C2 fails as it is stated.  One clip of [0.1] seconds and an audio track
    of one second: the loop count is 10, and ten times [0.1] added one after
    the other is [0.9999999999999999], which is not above [T], so nothing
    is trimmed.  The duration is below [T] and below [sum(D) * loops],
    whether that product is the float product (which is [1.0]) or the
    product of the numbers: it is not their minimum. *)
Lemma build_sequence_not_min :
  let T := Float.of_Z 1 in
  let final_video := build_sequence one_tenth 10 T in
  loop_count T (total_duration one_tenth) = inr 10%Z
  ∧ video_duration final_video = S754_finite false 9007199254740991 (-53)
  ∧ Float.mul (running_sum Float.zero (durations one_tenth)) (Float.of_Z 10)
    = T
  ∧ Float.ltb (video_duration final_video) T = true
  ∧ (Float.to_Q (video_duration final_video)
     < Qmin (Float.to_Q T)
         (Qsum (Float.to_Q <$> durations one_tenth) * inject_Z 10))%Q.
Proof. repeat split; vm_compute; reflexivity. Qed.

(** C2, amended: the built sequence is the clip list repeated [loops] times,
    every repetition in the order of the list.  Its duration is [T] when
    the duration [c] of the concatenation, the durations of the repeated
    clips added one after the other as floats, is above [T], and [c]
    otherwise: the minimum of [T] and [c].  So it is never above [T]: a
    longer concatenation is trimmed, a shorter one is left as it is. *)
Theorem build_sequence_spec (clips : list clip) (T : spec_float) (loops : Z) :
  Float.leb Float.zero T = true →
  let final_video := build_sequence clips loops T in
  let c := looped_duration clips loops in
  video_clips final_video = mjoin (replicate (Z.to_nat loops) clips)
  ∧ length (video_clips final_video) = (Z.to_nat loops * length clips)%nat
  ∧ (∀ k j : nat, (Z.of_nat k < loops)%Z → (j < length clips)%nat →
       video_clips final_video !! (k * length clips + j)%nat = clips !! j)
  ∧ video_duration final_video = (if Float.ltb T c then T else c)
  ∧ Float.ltb T (video_duration final_video) = false
  ∧ (Float.is_nan c = false →
     Float.leb (video_duration final_video) T = true).
Proof.
  intros HT final_video c.
  assert (video_clips final_video = list_mul clips loops) as Hclips.
  { unfold final_video, build_sequence. by destruct (Float.ltb _ _). }
  assert (video_duration final_video = if Float.ltb T c then T else c)
    as Hdur.
  { unfold final_video, build_sequence. rewrite concatenate_duration.
    fold c. destruct (Float.ltb T c); [|apply concatenate_duration].
    unfold subclip0. by rewrite (leb_ltb_false _ _ HT). }
  rewrite Hclips. split; [done|]. split; [apply list_mul_length|].
  split; [intros k j; apply list_mul_lookup|]. split; [done|].
  rewrite Hdur. destruct (leb_not_nan _ _ HT) as [_ HTnan].
  destruct (Float.ltb T c) eqn:Hcmp.
  - split; [apply ltb_irrefl|]. intros _.
    apply ltb_false_leb; [done..|apply ltb_irrefl].
  - split; [done|]. intros Hc. by apply ltb_false_leb.
Qed.

Lemma build_sequence_spec_witness :
  Float.ltb (Float.of_Z 25)
    (video_duration
       (build_sequence [Clip 0 "a.mp4" (Float.of_Z 10);
                        Clip 1 "b.mp4" (Float.of_Z 10)] 2 (Float.of_Z 25)))
  = false.
Proof.
  apply (build_sequence_spec
           [Clip 0 "a.mp4" (Float.of_Z 10); Clip 1 "b.mp4" (Float.of_Z 10)]
           (Float.of_Z 25) 2).
  reflexivity.
Defined.

(** Scenarios A and B of the specification. *)
Example scenario_A :
  let clips := [Clip 0 "a.mp4" (Float.of_Z 10);
                Clip 1 "b.mp4" (Float.of_Z 10)] in
  loop_count (Float.of_Z 25) (total_duration clips) = inr 2%Z
  ∧ video_duration (concatenate_videoclips (list_mul clips 2))
    = Float.of_Z 40
  ∧ video_duration (build_sequence clips 2 (Float.of_Z 25)) = Float.of_Z 25.
Proof. repeat split. Qed.

Example scenario_B :
  let clips := [Clip 0 "a.mp4" (Float.of_Z 30)] in
  loop_count (Float.of_Z 10) (total_duration clips) = inr 1%Z
  ∧ video_duration (build_sequence clips 1 (Float.of_Z 10)) = Float.of_Z 10.
Proof. repeat split. Qed.

(** ** The paths through [main] *)

Lemma print_selected_run paths :
  print_selected paths = (Next (), bullet <$> paths).
Proof.
  induction paths as [|p paths IH]; [done|].
  simpl. unfold mbind, M_bind, print, emit. by rewrite IH.
Qed.

Lemma pick_files_run e title allow_multiple :
  pick_files e title allow_multiple
  = (Next (picked e allow_multiple),
     pick_trace title allow_multiple (picked e allow_multiple)).
Proof.
  unfold pick_files, pick_trace. fold (picked e allow_multiple).
  destruct (picked e allow_multiple) as [|p paths]; [done|].
  unfold mbind, M_bind, print, emit. rewrite print_selected_run.
  simpl. by rewrite app_nil_r.
Qed.

Lemma close_clips_run clips : close_clips clips = (Next (), closes clips).
Proof.
  induction clips as [|c clips IH]; [done|].
  simpl. unfold mbind, M_bind, emit. by rewrite IH.
Qed.

Lemma load_videos_run e video_paths clips total :
  load_videos e video_paths clips total
  = match load_result e (length clips) video_paths with
    | (new, None) =>
        (Next (clips ++ new, running_sum total (or0 <$> durations new)),
         opens new)
    | (new, Some (p, exn)) =>
        (Return LoadError, opens new ++ [Print (video_error p exn)])
    end.
Proof.
  revert clips total. induction video_paths as [|p rest IH]; intros clips total.
  - simpl. by rewrite app_nil_r.
  - simpl. destruct (VideoFileClip e p) as [exn|d]; [done|].
    unfold mbind, M_bind, emit. rewrite IH, length_app. simpl.
    replace (length clips + 1)%nat with (S (length clips)) by lia.
    destruct (load_result e (S (length clips)) rest) as [new [[q exn]|]].
    + done.
    + by rewrite <- app_assoc.
Qed.

(** The clips the loop opens are the chosen paths in their order, as far as
    they load; they are numbered from [start] on and carry the durations the
    media library reports. *)
Lemma load_result_paths e start video_paths :
  let '(clips, failure) := load_result e start video_paths in
  match failure with
  | None => clip_path <$> clips = video_paths
  | Some (p, exn) =>
      VideoFileClip e p = inl exn
      ∧ ∃ rest, video_paths = (clip_path <$> clips) ++ p :: rest
  end.
Proof.
  revert start. induction video_paths as [|p rest IH]; intros start; [done|].
  simpl. destruct (VideoFileClip e p) as [exn|d] eqn:Hp.
  - split; [done|]. by exists rest.
  - specialize (IH (S start)).
    destruct (load_result e (S start) rest) as [clips [[q exn]|]].
    + destruct IH as [Hq [rest' ->]]. split; [done|]. by exists rest'.
    + by rewrite fmap_cons, IH.
Qed.

Lemma load_result_clips e start video_paths (i : nat) c :
  (load_result e start video_paths).1 !! i = Some c →
  clip_index c = (start + i)%nat
  ∧ video_paths !! i = Some (clip_path c)
  ∧ VideoFileClip e (clip_path c) = inr (clip_duration c).
Proof.
  revert start i. induction video_paths as [|p rest IH]; intros start i; [done|].
  simpl. destruct (VideoFileClip e p) as [exn|d] eqn:Hp; [done|].
  specialize (IH (S start)).
  destruct (load_result e (S start) rest) as [clips failure]. simpl in *.
  destruct i as [|i]; simpl.
  - intros [= <-]. simpl. split; [lia|done].
  - intros Hc. apply IH in Hc as (-> & ? & ?). split; [lia|done].
Qed.

Lemma RunPath_eq e o tr tr' : RunPath e o tr → tr = tr' → RunPath e o tr'.
Proof. by intros ? <-. Qed.

(** Two traces that differ in how their parts are grouped. *)
Ltac trace_eq :=
  unfold loading, confirmation, preparation, naming, header, output_path,
    suggested_name, total_duration, video_title, audio_title,
    video_error, audio_error, export_error;
  repeat match goal with
         | H : (1 <? _)%Z = _ |- _ => rewrite H
         | H : askopenfilenames _ = [] |- _ => rewrite H
         | H : confirm_answer _ = _ |- _ => rewrite H
         | H : name_answer _ = _ |- _ => rewrite H
         end;
  rewrite <- ?app_assoc; reflexivity.

Ltac by_path c := eapply RunPath_eq; [eapply c; eassumption|trace_eq].

(** Every run of [main] takes one of the ways of [RunPath]. *)
Lemma run_path e : RunPath e (run e).1 (run e).2.
Proof.
  destruct (run e) as [o tr] eqn:Hrun. simpl.
  unfold run, main in Hrun.
  rewrite !pick_files_run in Hrun.
  unfold input in Hrun.
  unfold mbind, M_bind, print, emit, finish, mret, M_ret in Hrun.
  cbv beta iota in Hrun.
  rewrite ?pick_files_run, load_videos_run in Hrun.
  cbn [picked length] in Hrun.
  repeat case_match; simplify_eq.
  all: try (match goal with
            | H : context [close_clips] |- _ => rewrite close_clips_run in H
            end; simplify_eq).
  all: repeat match goal with
         | H : bool_decide _ = false |- _ => apply bool_decide_eq_false in H
         | H : bool_decide _ = true |- _ => apply bool_decide_eq_true in H
         | H : ¬ (_ ≠ _) |- _ => apply dec_stable in H
         | H : askopenfilename ?e = String _ _ |- _ =>
             assert (askopenfilename e ≠ "") by (rewrite H; discriminate);
             rewrite <- H in *; clear H
         end.
  all: try match goal with
            | H : name_answer ?e = Some _, H' : write_videofile ?e _ = ?r
              |- _ =>
                assert (write_videofile e (output_path e) = r)
                  by (unfold output_path, suggested_name; rewrite H; exact H')
            end.
  all: first [ by_path path_success | by_path path_export_error
             | by_path path_count_error | by_path path_name_eof
             | by_path path_audio_error | by_path path_no_audio
             | by_path path_empty | by_path path_video_error
             | by_path path_declined | by_path path_confirm_eof
             | by_path path_no_video ].
Qed.

(** The ways exclude each other: the environment decides the run. *)
Lemma RunPath_det e o1 tr1 o2 tr2 :
  RunPath e o1 tr1 → RunPath e o2 tr2 → o1 = o2 ∧ tr1 = tr2.
Proof.
  intros H1 H2. destruct H1; destruct H2; try congruence.
  all: repeat match goal with
         | H : ?x = _, H' : ?x = _ |- _ => rewrite H in H'; simplify_eq
         end.
  all: done.
Qed.

Lemma run_of_path e o tr : RunPath e o tr → run e = (o, tr).
Proof.
  intros H. destruct (RunPath_det _ _ _ _ _ (run_path e) H) as [Ho Htr].
  destruct (run e). simpl in *. by subst.
Qed.

(** ** Reading the traces of the paths *)

Lemma omap_fmap_None {A B C} (f : B → option C) (g : A → B) (l : list A) :
  (∀ x, f (g x) = None) → omap f (g <$> l) = [].
Proof.
  intros H. induction l as [|x l IH]; [done|].
  csimpl. by rewrite H.
Qed.

Lemma omap_fmap_Some {A B C} (f : B → option C) (g : A → B) (h : A → C)
  (l : list A) :
  (∀ x, f (g x) = Some (h x)) → omap f (g <$> l) = h <$> l.
Proof.
  intros H. induction l as [|x l IH]; [done|].
  csimpl. by rewrite H, IH.
Qed.

Lemma omap_pick_trace {C} (f : event → option C) title multiple paths :
  (∀ l, f (Print l) = None) → (∀ t m, f (Dialog t m) = None) →
  omap f (pick_trace title multiple paths) = [].
Proof.
  intros Hp Hd. unfold pick_trace. csimpl. rewrite Hd.
  destruct paths as [|p paths]; csimpl; rewrite Hp; [done|].
  unfold bullet. rewrite Hp. by apply omap_fmap_None.
Qed.

Lemma exports_app tr1 tr2 : exports (tr1 ++ tr2) = exports tr1 ++ exports tr2.
Proof. apply omap_app. Qed.

Lemma opened_app tr1 tr2 : opened (tr1 ++ tr2) = opened tr1 ++ opened tr2.
Proof. apply omap_app. Qed.

Lemma closed_app tr1 tr2 : closed (tr1 ++ tr2) = closed tr1 ++ closed tr2.
Proof. apply omap_app. Qed.

Lemma exports_pick_trace title multiple paths :
  exports (pick_trace title multiple paths) = [].
Proof. by apply omap_pick_trace. Qed.

Lemma exports_loading e clips : exports (loading e clips) = [].
Proof.
  unfold exports, loading, confirmation, header, opens.
  rewrite !omap_app, omap_pick_trace by done.
  by rewrite omap_fmap_None.
Qed.

Lemma opened_loading e clips : opened (loading e clips) = VideoHandle <$> clips.
Proof.
  unfold opened, loading, confirmation, header, opens.
  rewrite !omap_app, omap_pick_trace by done.
  by rewrite (omap_fmap_Some _ _ VideoHandle).
Qed.

Lemma closed_loading e clips : closed (loading e clips) = [].
Proof.
  unfold closed, loading, confirmation, header, opens.
  rewrite !omap_app, omap_pick_trace by done.
  by rewrite omap_fmap_None.
Qed.

Lemma exports_preparation e clips d loops :
  exports (preparation e clips d loops) = [].
Proof.
  unfold exports, preparation, naming.
  rewrite !omap_app, omap_pick_trace by done. by destruct (1 <? loops)%Z.
Qed.

Lemma opened_preparation e clips d loops :
  opened (preparation e clips d loops) = [AudioHandle (askopenfilename e)].
Proof.
  unfold opened, preparation, naming.
  rewrite !omap_app, omap_pick_trace by done. by destruct (1 <? loops)%Z.
Qed.

Lemma closed_preparation e clips d loops :
  closed (preparation e clips d loops) = [].
Proof.
  unfold closed, preparation, naming.
  rewrite !omap_app, omap_pick_trace by done. by destruct (1 <? loops)%Z.
Qed.

Lemma printed_snoc tr l : printed (tr ++ [Print l]) = printed tr ++ [l].
Proof. unfold printed. by rewrite omap_app. Qed.

Lemma last_printed_snoc tr l : last (printed (tr ++ [Print l])) = Some l.
Proof. rewrite printed_snoc. apply last_snoc. Qed.

(** The line that reports a video that does not load names the file. *)
Lemma video_error_mentions p exn :
  mentions (Path.basename p) (video_error p exn) = true.
Proof.
  unfold mentions, video_error. cbn [existsb]. rewrite orb_false_r.
  apply contains_spec. exists (nl +:+ "Error loading "), (" -> " +:+ exn).
  by rewrite !str_app_assoc.
Qed.

(** The answer that lets the run go on, taken apart. *)
Lemma confirmed_inv e :
  Str.lower <$> confirm_answer e = Some "y" →
  ∃ a, confirm_answer e = Some a ∧ Str.lower a = "y".
Proof.
  destruct (confirm_answer e) as [a|]; [|done]. intros [= H]. by exists a.
Qed.

Lemma filter_none {A} (P : A → Prop) `{∀ x, Decision (P x)} (l : list A) :
  (∀ x, x ∈ l → ¬ P x) → filter P l = [].
Proof.
  induction l as [|x l IH]; intros Hall; [done|].
  rewrite filter_cons_False by (apply Hall; left).
  apply IH. intros y Hy. apply Hall. by right.
Qed.

Lemma filter_all {A} (P : A → Prop) `{∀ x, Decision (P x)} (l : list A) :
  (∀ x, x ∈ l → P x) → filter P l = l.
Proof.
  induction l as [|x l IH]; intros Hall; [done|].
  rewrite filter_cons_True by (apply Hall; left).
  f_equal. apply IH. intros y Hy. apply Hall. by right.
Qed.

(** ** The workflow *)

(** The clips of a run are the chosen files in the order of the choice. *)
Lemma loaded_in_selection_order e clips :
  load_result e 0 (askopenfilenames e) = (clips, None) →
  clip_path <$> clips = askopenfilenames e
  ∧ ∀ (i : nat) c, clips !! i = Some c → clip_index c = i.
Proof.
  intros H. split.
  - pose proof (load_result_paths e 0 (askopenfilenames e)) as Hp.
    by rewrite H in Hp.
  - intros i c Hc.
    pose proof (load_result_clips e 0 (askopenfilenames e) i c) as Hi.
    rewrite H in Hi. apply Hi in Hc as [Hc _]. by rewrite Hc.
Qed.

(** A run that gets to the export hands [write_videofile] the sequence that
    [build_sequence] makes of the loaded clips, for the loop count of line
    123. *)
Lemma run_exports_built_sequence e clips d name loops :
  askopenfilenames e ≠ [] →
  Str.lower <$> confirm_answer e = Some "y" →
  load_result e 0 (askopenfilenames e) = (clips, None) →
  Float.leb (total_duration clips) Float.zero = false →
  askopenfilename e ≠ "" →
  AudioFileClip e (askopenfilename e) = inr d →
  name_answer e = Some name →
  loop_count (or0 d) (total_duration clips) = inr loops →
  ∃ (ok : bool) after,
    (run e).1 = (if ok then Success else ExportError)
    ∧ (run e).2
      = loading e clips ++ preparation e clips d loops
        ++ Export (build_sequence clips loops (or0 d)) (askopenfilename e)
             (output_path e) ok :: after.
Proof.
  intros Hv (a & Hc & Hy)%confirmed_inv Hl Ht Ha Hd Hn Hloops.
  destruct (write_videofile e (output_path e)) as [exn|] eqn:Hw.
  - exists false. eexists.
    by rewrite (run_of_path _ _ _
                  (path_export_error e a clips d name loops exn
                     Hv Hc Hy Hl Ht Ha Hd Hn Hloops Hw)).
  - exists true. eexists.
    by rewrite (run_of_path _ _ _
                  (path_success e a clips d name loops
                     Hv Hc Hy Hl Ht Ha Hd Hn Hloops Hw)).
Qed.

(** C4: when the durations of the chosen videos add up to zero or less, the
    run ends at the test of line 94: it prints that the video content is
    empty and returns; nothing comes after: no sequence is handed to an
    export, no output file is written, and the audio is never opened. *)
Theorem empty_content_aborts e clips :
  askopenfilenames e ≠ [] →
  Str.lower <$> confirm_answer e = Some "y" →
  load_result e 0 (askopenfilenames e) = (clips, None) →
  Float.leb (total_duration clips) Float.zero = true →
  run e = (EmptyContentError,
           loading e clips ++ [Print [Txt "Video content is empty."]])
  ∧ exports (run e).2 = []
  ∧ opened (run e).2 = VideoHandle <$> clips.
Proof.
  intros Hv (a & Hc & Hy)%confirmed_inv Hl Hsum.
  rewrite (run_of_path _ _ _ (path_empty e a clips Hv Hc Hy Hl Hsum)).
  cbn [fst snd]. split; [done|]. split.
  - by rewrite exports_app, exports_loading.
  - rewrite opened_app, opened_loading. apply app_nil_r.
Qed.

Lemma empty_content_aborts_witness : (run env_empty).1 = EmptyContentError.
Proof.
  destruct (empty_content_aborts env_empty
              [Clip 0 "/v/a.mp4" Float.zero; Clip 1 "/v/b.mp4" Float.zero])
    as [-> _].
  - discriminate.
  - reflexivity.
  - reflexivity.
  - reflexivity.
  - reflexivity.
Defined.

(** ** Media handles *)

Lemma opened_closes clips : opened (closes clips) = [].
Proof. by apply omap_fmap_None. Qed.

Lemma closed_closes clips : closed (closes clips) = VideoHandle <$> clips.
Proof. by apply (omap_fmap_Some _ _ VideoHandle). Qed.

(** On the way that reaches the end of [main] every handle that was opened
    is closed. *)
Lemma success_closes_all e : (run e).1 = Success → leaked (run e).2 = [].
Proof.
  intros Ho. pose proof (run_path e) as H.
  destruct (run e) as [o tr]. simpl in *. subst o.
  inversion H as [| | | | | | | | | |a clips d name loops]; subst.
  unfold leaked. apply filter_none. intros h Hh Hopen. apply Hopen. clear Hopen.
  revert Hh.
  rewrite !opened_app, !closed_app, opened_loading, closed_loading,
    opened_preparation, closed_preparation, opened_closes, closed_closes.
  simpl. done.
Qed.

(** On the way that ends with a failed export nothing is closed: every
    handle of the run is left open, and there is at least the audio. *)
Lemma export_error_closes_nothing e :
  (run e).1 = ExportError →
  closed (run e).2 = []
  ∧ leaked (run e).2 = opened (run e).2
  ∧ AudioHandle (askopenfilename e) ∈ leaked (run e).2.
Proof.
  intros Ho. pose proof (run_path e) as H.
  destruct (run e) as [o tr]. simpl in *. subst o.
  inversion H as [| | | | | | | | |a clips d name loops exn|]; subst.
  assert (closed (loading e clips ++ preparation e clips d loops
                  ++ [Export (build_sequence clips loops (or0 d))
                        (askopenfilename e) (output_path e) false;
                      Print (export_error exn)]) = []) as Hclosed.
  { by rewrite !closed_app, closed_loading, closed_preparation. }
  split; [done|].
  assert (leaked (loading e clips ++ preparation e clips d loops
                  ++ [Export (build_sequence clips loops (or0 d))
                        (askopenfilename e) (output_path e) false;
                      Print (export_error exn)])
          = opened (loading e clips ++ preparation e clips d loops
                  ++ [Export (build_sequence clips loops (or0 d))
                        (askopenfilename e) (output_path e) false;
                      Print (export_error exn)])) as Hleaked.
  { unfold leaked. rewrite Hclosed. apply filter_all.
    intros h _. apply not_elem_of_nil. }
  split; [done|]. rewrite Hleaked.
  rewrite !opened_app, opened_loading, opened_preparation.
  rewrite !elem_of_app. right. left. by left.
Qed.

(** C5, at an export that fails: the run returns at line 139, before the
    cleanup of lines 145-149; the two clips and the audio stay open. *)
Lemma export_failure_leaks_handles :
  (run env_export_error).1 = ExportError
  ∧ closed (run env_export_error).2 = []
  ∧ leaked (run env_export_error).2
    = [VideoHandle (Clip 0 "/v/a.mp4" (Float.of_Z 10));
       VideoHandle (Clip 1 "/v/b.mp4" (Float.of_Z 10));
       AudioHandle "/m/song.mp3"].
Proof. vm_compute. repeat split. Qed.

(** The same at a cancelled audio dialog: the run returns at line 102 with
    the clips open. *)
Example audio_cancel_leaks_handles :
  (run env_no_audio).1 = UserCancelled
  ∧ leaked (run env_no_audio).2
    = [VideoHandle (Clip 0 "/v/a.mp4" (Float.of_Z 10));
       VideoHandle (Clip 1 "/v/b.mp4" (Float.of_Z 10))].
Proof. vm_compute. repeat split. Qed.

(** The success path of the same selection closes all of them. *)
Example success_leaks_nothing :
  (run env_success).1 = Success ∧ leaked (run env_success).2 = [].
Proof. vm_compute. repeat split. Qed.

(** ** Error reports *)

(** C6, at an audio file that does not load: the run ends with a load
    error, and the line that reports it is the prefix ["Audio error: "]
    and the text of the exception; the name of the file is not in it.  The
    handler of a video that does not load, a few lines above, does put the
    base name of the file into its line. *)
Lemma audio_error_omits_filename :
  (AudioFileClip env_audio_error "/m/song.mp3" = inl "decoding failed"
   ∧ (run env_audio_error).1 = LoadError
   ∧ last (printed (run env_audio_error).2)
     = Some [Txt "Audio error: decoding failed"]
   ∧ mentions "song.mp3" [Txt "Audio error: decoding failed"] = false)
  ∧ (VideoFileClip env_video_error "/v/b.mp4" = inl "cannot open"
     ∧ (run env_video_error).1 = LoadError
     ∧ last (printed (run env_video_error).2)
       = Some [Txt (nl +:+ "Error loading b.mp4 -> cannot open")]
     ∧ mentions "b.mp4" [Txt (nl +:+ "Error loading b.mp4 -> cannot open")]
       = true).
Proof. vm_compute. repeat split. Qed.

(** The same at an export that fails. *)
Example export_error_omits_filename :
  (run env_export_error).1 = ExportError
  ∧ exports (run env_export_error).2
    = [("/Users/me/Desktop/song music video.mp4", false)]
  ∧ last (printed (run env_export_error).2)
    = Some [Txt "Export error: encoder failed"]
  ∧ mentions "song music video.mp4" [Txt "Export error: encoder failed"]
    = false.
Proof. vm_compute. repeat split. Qed.

(** X15: a video that does not load is reported in a line that holds the
    base name of its file; an audio file that does not load and an export
    that fails are reported in a line made of a fixed prefix and the text
    of the exception.  Each of the three ends the run with that line: no
    other file is loaded after a load error and no export is attempted;
    after an export error no second export is attempted. *)
Theorem errors_reported e :
  (∀ clips p exn,
     askopenfilenames e ≠ [] →
     Str.lower <$> confirm_answer e = Some "y" →
     load_result e 0 (askopenfilenames e) = (clips, Some (p, exn)) →
     run e = (LoadError, loading e clips ++ [Print (video_error p exn)])
     ∧ VideoFileClip e p = inl exn
     ∧ mentions (Path.basename p) (video_error p exn) = true
     ∧ exports (run e).2 = [])
  ∧ (∀ clips exn,
       askopenfilenames e ≠ [] →
       Str.lower <$> confirm_answer e = Some "y" →
       load_result e 0 (askopenfilenames e) = (clips, None) →
       Float.leb (total_duration clips) Float.zero = false →
       askopenfilename e ≠ "" →
       AudioFileClip e (askopenfilename e) = inl exn →
       (run e).1 = LoadError
       ∧ last (run e).2 = Some (Print [Txt ("Audio error: " +:+ exn)])
       ∧ exports (run e).2 = [])
  ∧ (∀ clips d name loops exn,
       askopenfilenames e ≠ [] →
       Str.lower <$> confirm_answer e = Some "y" →
       load_result e 0 (askopenfilenames e) = (clips, None) →
       Float.leb (total_duration clips) Float.zero = false →
       askopenfilename e ≠ "" →
       AudioFileClip e (askopenfilename e) = inr d →
       name_answer e = Some name →
       loop_count (or0 d) (total_duration clips) = inr loops →
       write_videofile e (output_path e) = Some exn →
       (run e).1 = ExportError
       ∧ last (run e).2 = Some (Print [Txt ("Export error: " +:+ exn)])
       ∧ exports (run e).2 = [(output_path e, false)]).
Proof.
  split; [|split].
  - intros clips p exn Hv (a & Hc & Hy)%confirmed_inv Hl.
    rewrite (run_of_path _ _ _
               (path_video_error e a clips p exn Hv Hc Hy Hl)).
    cbn [fst snd]. split; [done|]. split.
    + pose proof (load_result_paths e 0 (askopenfilenames e)) as Hp.
      rewrite Hl in Hp. apply Hp.
    + split; [apply video_error_mentions|].
      by rewrite exports_app, exports_loading.
  - intros clips exn Hv (a & Hc & Hy)%confirmed_inv Hl Ht Ha Hd.
    rewrite (run_of_path _ _ _
               (path_audio_error e a clips exn Hv Hc Hy Hl Ht Ha Hd)).
    cbn [fst snd]. split; [done|]. split.
    + rewrite !app_assoc. apply last_snoc.
    + by rewrite !exports_app, exports_loading, exports_pick_trace.
  - intros clips d name loops exn Hv (a & Hc & Hy)%confirmed_inv
      Hl Ht Ha Hd Hn Hloops Hw.
    rewrite (run_of_path _ _ _
               (path_export_error e a clips d name loops exn
                  Hv Hc Hy Hl Ht Ha Hd Hn Hloops Hw)).
    cbn [fst snd]. split; [done|]. split.
    + rewrite (app_assoc (loading e clips)).
      change [?x; ?y] with ([x] ++ [y]). rewrite app_assoc. apply last_snoc.
    + by rewrite !exports_app, exports_loading, exports_preparation.
Qed.

Lemma errors_reported_witness :
  run env_video_error
  = (LoadError,
     loading env_video_error [Clip 0 "/v/a.mp4" (Float.of_Z 10)]
     ++ [Print (video_error "/v/b.mp4" "cannot open")])
  ∧ mentions "b.mp4" (video_error "/v/b.mp4" "cannot open") = true.
Proof.
  destruct (errors_reported env_video_error) as [H _].
  destruct (H [Clip 0 "/v/a.mp4" (Float.of_Z 10)] "/v/b.mp4" "cannot open")
    as (Hrun & _ & Hm & _).
  - discriminate.
  - reflexivity.
  - reflexivity.
  - split; [exact Hrun|exact Hm].
Defined.

(** ** Exit status *)




Example exit_code_linux : exit_code env_linux = 1%Z.
Proof. reflexivity. Qed.

(** The standard input ending at the naming prompt: the clips and the
    audio are open when the exception leaves [main]. *)
Example name_prompt_end_of_input :
  (run env_name_eof).1 = Uncaught "EOFError"
  ∧ exit_code env_name_eof = 1%Z
  ∧ closed (run env_name_eof).2 = []
  ∧ exports (run env_name_eof).2 = [].
Proof. vm_compute. repeat split. Qed.

(** The base name ["."] reaches the export with the number after the
    extension. *)
Example dotted_name_exported :
  (run env_dotted).1 = Success
  ∧ exports (run env_dotted).2 = [("/Users/me/Desktop/..mp4-1", true)].
Proof. vm_compute. repeat split. Qed.

(** ** Where the number goes *)

Section Splitext.
Implicit Types (s t q x : string) (c a : ascii).

Lemma rfind_range c s : (-1 ≤ Str.rfind c s < Z.of_nat (String.length s))%Z.
Proof.
  induction s as [|a s IH]; simpl; [lia|].
  destruct (0 <=? Str.rfind c s)%Z eqn:Hr; [lia|].
  case_bool_decide; lia.
Qed.

Lemma rfind_app c s t :
  Str.rfind c (s +:+ t)
  = if (0 <=? Str.rfind c t)%Z
    then (Z.of_nat (String.length s) + Str.rfind c t)%Z
    else Str.rfind c s.
Proof.
  induction s as [|a s IH].
  - rewrite str_app_nil_l. simpl.
    pose proof (rfind_range c t). destruct (0 <=? Str.rfind c t)%Z eqn:Hr; lia.
  - rewrite str_app_cons. cbn [Str.rfind String.length]. rewrite IH.
    pose proof (rfind_range c s).
    destruct (0 <=? Str.rfind c t)%Z eqn:Hr; [|done].
    assert ((0 <=? Z.of_nat (String.length s) + Str.rfind c t)%Z = true)
      as -> by lia.
    lia.
Qed.

Lemma rfind_absent c s : c ∉ Str.chars s → Str.rfind c s = (-1)%Z.
Proof.
  induction s as [|a s IH]; simpl; [done|].
  intros [Ha Hs]%not_elem_of_cons. rewrite IH by done. simpl.
  by rewrite bool_decide_eq_false_2.
Qed.

Lemma take_app_length s t : Str.take (String.length s) (s +:+ t) = s.
Proof.
  induction s as [|a s IH]; [by destruct t|].
  rewrite str_app_cons. simpl. by rewrite IH.
Qed.

Lemma drop_app_length s t : Str.drop (String.length s) (s +:+ t) = t.
Proof. induction s as [|a s IH]; [done|]. by rewrite str_app_cons. Qed.

Lemma drop_app_le n s t :
  (n ≤ String.length s)%nat → Str.drop n (s +:+ t) = Str.drop n s +:+ t.
Proof.
  revert s. induction n as [|n IH]; intros [|a s] Hn; simpl in *;
    try done; try lia.
  apply IH. lia.
Qed.

Lemma length_drop n s :
  String.length (Str.drop n s) = (String.length s - n)%nat.
Proof. revert s. induction n as [|n IH]; intros [|a s]; simpl; auto. Qed.

(** The loop over the leading dots finds a character that is not a dot
    exactly when there is one between the two indices. *)
Lemma skip_dots_spec fuel s (i dot : nat) :
  (dot ≤ String.length s)%nat → (dot - i ≤ fuel)%nat →
  Path.skip_dots fuel s (Z.of_nat i) (Z.of_nat dot)
  = existsb (λ c, bool_decide (c ≠ Path.extsep))
      (Str.chars (Str.take (dot - i) (Str.drop i s))).
Proof.
  revert i. induction fuel as [|fuel IH]; intros i Hdot Hfuel.
  - replace (dot - i)%nat with 0%nat by lia. done.
  - cbn [Path.skip_dots].
    destruct (Z.of_nat i <? Z.of_nat dot)%Z eqn:Hlt.
    + assert (i < dot)%nat as Hi by lia.
      replace (Z.of_nat i + 1)%Z with (Z.of_nat (S i)) by lia.
      rewrite IH by lia.
      unfold Str.slice1, Str.slice_from. rewrite Nat2Z.id.
      replace (dot - i)%nat with (S (dot - S i)) by lia.
      assert (Str.drop (S i) s = Str.drop 1 (Str.drop i s)) as ->.
      { clear. revert s.
        induction i as [|i IHi]; intros [|a s]; simpl; try done. apply IHi. }
      pose proof (length_drop i s) as Hlen.
      destruct (Str.drop i s) as [|a rest]; [simpl in Hlen; lia|].
      simpl. destruct (decide (a = Path.extsep)) as [->|Hne].
      * by rewrite bool_decide_eq_false_2 by (intros H; by apply H).
      * rewrite bool_decide_eq_true_2 by congruence.
        by rewrite bool_decide_eq_true_2.
    + replace (dot - i)%nat with 0%nat by lia. done.
Qed.

(** A path that ends in a dot and a stretch without dot or slash, and
    whose last component has a character other than the dot before that,
    is split there. *)
Lemma splitext_plain q x :
  Path.extsep ∉ Str.chars x → Path.sep ∉ Str.chars x →
  existsb (λ c, bool_decide (c ≠ Path.extsep)) (Str.chars (Path.basename q))
  = true →
  Path.splitext (q +:+ String Path.extsep x) = (q, String Path.extsep x).
Proof.
  intros Hdot Hsep Hname. unfold Path.splitext.
  assert (Str.rfind Path.extsep (String Path.extsep x) = 0%Z) as Hd.
  { cbn [Str.rfind]. by rewrite (rfind_absent _ _ Hdot). }
  assert (Str.rfind Path.sep (String Path.extsep x) = (-1)%Z) as Hs.
  { cbn [Str.rfind]. by rewrite (rfind_absent _ _ Hsep). }
  assert (Str.rfind Path.extsep (q +:+ String Path.extsep x)
          = Z.of_nat (String.length q)) as ->.
  { rewrite rfind_app, Hd. simpl. lia. }
  assert (Str.rfind Path.sep (q +:+ String Path.extsep x)
          = Str.rfind Path.sep q) as ->.
  { by rewrite rfind_app, Hs. }
  pose proof (rfind_range Path.sep q) as Hr.
  assert ((Str.rfind Path.sep q <? Z.of_nat (String.length q))%Z = true)
    as -> by lia.
  replace (Str.rfind Path.sep q + 1)%Z
    with (Z.of_nat (Z.to_nat (Str.rfind Path.sep q + 1))) by lia.
  rewrite skip_dots_spec; [|rewrite str_length_app; lia..].
  unfold Path.basename, Str.slice_from in Hname.
  rewrite drop_app_le by lia.
  rewrite <- (length_drop (Z.to_nat (Str.rfind Path.sep q + 1)) q).
  rewrite take_app_length, Hname. simpl.
  unfold Str.slice_to, Str.slice_from. rewrite Nat2Z.id.
  by rewrite take_app_length, drop_app_length.
Qed.

Lemma join_app (dir : string) s t :
  s ≠ "" → Path.join dir (s +:+ t) = Path.join dir s +:+ t.
Proof.
  intros Hs. unfold Path.join. destruct s as [|b s]; [done|].
  rewrite str_app_cons. simpl.
  case_bool_decide; [done|].
  destruct (_ || _); by rewrite ?str_app_assoc.
Qed.

Lemma resolved_name_nonempty base_name : resolved_name base_name ≠ "".
Proof.
  unfold resolved_name. by destruct (Str.strip base_name).
Qed.

End Splitext.

(** For an extension made of a dot and a stretch without dot or slash (as
    [".mp4"]) and a name whose last path component has a character other
    than the dot, the number goes between the name and the extension:
    [desktop/name-k.ext] for the least [k] from 1 on that is free. *)
Lemma safe_save_path_numbered_before_extension
  desktop (fs : gset string) base_name x :
  let extension := String Path.extsep x in
  let stem := Path.join desktop (resolved_name base_name) in
  Path.extsep ∉ Str.chars x → Path.sep ∉ Str.chars x →
  existsb (λ c, bool_decide (c ≠ Path.extsep)) (Str.chars (Path.basename stem))
  = true →
  first_candidate desktop base_name extension = stem +:+ extension
  ∧ (stem +:+ extension ∈ fs →
     ∃ k, (1 ≤ k)%Z
          ∧ safe_save_path desktop fs base_name extension
            = stem +:+ "-" +:+ pretty k +:+ extension
          ∧ ∀ j, (1 ≤ j < k)%Z → stem +:+ "-" +:+ pretty j +:+ extension ∈ fs).
Proof.
  intros extension stem Hdot Hsep Hname.
  assert (first_candidate desktop base_name extension = stem +:+ extension)
    as Hcand.
  { unfold first_candidate. apply join_app, resolved_name_nonempty. }
  split; [done|]. intros Hin.
  pose proof (safe_save_path_first_free desktop fs base_name extension) as H.
  cbv zeta in H. rewrite Hcand in H. unfold extension in *.
  rewrite (splitext_plain _ _ Hdot Hsep Hname) in H.
  destruct H as [_ H]. exact (H Hin).
Qed.

(** * Further properties *)

(** ** Path resolution, for every input *)

(** X1: for every base name, extension and file system, what
    [safe_save_path] returns does not exist; it is the first candidate
    exactly when that one does not exist, and otherwise the numbered path
    with the least number from 1 on that does not exist, the number standing
    between the two halves [splitext] makes of the first candidate. *)
Theorem safe_save_path_fresh desktop (fs : gset string) base_name extension :
  let candidate := first_candidate desktop base_name extension in
  let root := (Path.splitext candidate).1 in
  let ext := (Path.splitext candidate).2 in
  let p := safe_save_path desktop fs base_name extension in
  (p ∉ fs)
  ∧ root +:+ ext = candidate
  ∧ (p = candidate ↔ candidate ∉ fs)
  ∧ (candidate ∈ fs →
     ∃ k, (1 ≤ k)%Z ∧ p = numbered root ext k
          ∧ ∀ j, (1 ≤ j < k)%Z → numbered root ext j ∈ fs).
Proof.
  intros candidate root ext p.
  pose proof (safe_save_path_fuel_enough desktop fs base_name extension) as H.
  unfold safe_save_path_fuel in H. fold candidate in H. fold p in H.
  pose proof (splitext_join candidate) as Hjoin. fold root ext in Hjoin.
  unfold root, ext in *. destruct (Path.splitext candidate) as [r x].
  cbn [fst snd] in *. apply safe_save_loop_Some in H as [Hp Hcase].
  split; [done|]. split; [done|]. split.
  - split; [by intros <-|]. intros Hout.
    by destruct Hcase as [[_ ?]|[? _]].
  - intros Hin. by destruct Hcase as [[? _]|[_ ?]].
Qed.

(** X3: a second resolution, made after a file was created at the path the
    first one returned, never returns that path again, whatever the names;
    and when the same name is resolved twice and neither the first candidate
    nor its number 1 existed, the two results are the first candidate and
    its number 1. *)
Theorem successive_saves_differ desktop (fs : gset string)
  base1 ext1 base2 ext2 :
  let p1 := safe_save_path desktop fs base1 ext1 in
  let candidate := first_candidate desktop base1 ext1 in
  let first_numbered :=
    numbered (Path.splitext candidate).1 (Path.splitext candidate).2 1 in
  safe_save_path desktop ({[p1]} ∪ fs) base2 ext2 ≠ p1
  ∧ (safe_save_path desktop ({[p1]} ∪ fs) base2 ext2 ∉ fs)
  ∧ ((candidate ∉ fs) → (first_numbered ∉ fs) →
     p1 = candidate
     ∧ safe_save_path desktop ({[p1]} ∪ fs) base1 ext1 = first_numbered).
Proof.
  intros p1 candidate first_numbered.
  pose proof (safe_save_path_first_free desktop ({[p1]} ∪ fs) base2 ext2)
    as [Hfresh _].
  split; [set_solver|]. split; [set_solver|].
  intros Hc Hn.
  assert (p1 = candidate) as Hp1.
  { unfold p1, safe_save_path, safe_save_path_fuel. fold candidate.
    destruct (Path.splitext candidate). simpl. by rewrite decide_False. }
  split; [done|]. rewrite Hp1.
  pose proof (safe_save_path_first_free desktop ({[candidate]} ∪ fs) base1 ext1)
    as [_ Hk].
  cbv zeta in Hk. fold candidate in Hk.
  destruct Hk as (k & Hk1 & -> & Hbelow); [set_solver|].
  destruct (decide (k = 1%Z)) as [->|Hne]; [done|].
  specialize (Hbelow 1%Z ltac:(lia)). fold first_numbered in Hbelow.
  apply elem_of_union in Hbelow as [Heq%elem_of_singleton|Hin]; [|done].
  exfalso. unfold first_numbered in Heq.
  eapply numbered_fresh. rewrite Heq. symmetry. apply splitext_join.
Qed.

(** ** The resolved name *)

Lemma lstrip_head s a t : Str.lstrip s = String a t → Str.isspace a = false.
Proof.
  induction s as [|b s IH]; simpl; [done|].
  destruct (Str.isspace b) eqn:Hb; [done|]. by intros [= <- _].
Qed.

Lemma rstrip_head a t :
  Str.isspace a = false → ∃ t', Str.rstrip (String a t) = String a t'.
Proof.
  intros Ha. simpl. destruct (Str.rstrip t); [|eauto].
  rewrite Ha. eauto.
Qed.

Lemma rstrip_last s c :
  Str.endswith c (Str.rstrip s) = true → Str.isspace c = false.
Proof.
  induction s as [|a s IH]; simpl; [done|].
  destruct (Str.rstrip s) as [|b r] eqn:Hr.
  - destruct (Str.isspace a) eqn:Ha; simpl; [done|].
    by intros ->%bool_decide_eq_true.
  - exact IH.
Qed.

Lemma rstrip_cons a s :
  Str.rstrip (String a s)
  = match Str.rstrip s with
    | EmptyString => if Str.isspace a then EmptyString else String a EmptyString
    | r => String a r
    end.
Proof. reflexivity. Qed.

Lemma rstrip_fixed s :
  (∀ c, Str.endswith c s = true → Str.isspace c = false) → Str.rstrip s = s.
Proof.
  induction s as [|a s IH]; intros Hlast; [done|].
  destruct s as [|b s].
  - simpl. rewrite (Hlast a); [done|]. simpl. by apply bool_decide_eq_true.
  - rewrite rstrip_cons, IH; [done|]. exact Hlast.
Qed.

Lemma lstrip_fixed s :
  (∀ c, Str.startswith c s = true → Str.isspace c = false) → Str.lstrip s = s.
Proof.
  destruct s as [|a s]; intros Hfirst; [done|].
  simpl. rewrite (Hfirst a); [done|]. simpl. by apply bool_decide_eq_true.
Qed.

Lemma strip_trimmed s :
  (∀ c, Str.startswith c (Str.strip s) = true → Str.isspace c = false)
  ∧ (∀ c, Str.endswith c (Str.strip s) = true → Str.isspace c = false).
Proof.
  split; [|intros c; apply rstrip_last].
  intros c. unfold Str.strip.
  destruct (Str.lstrip s) as [|a t] eqn:Hl; [done|].
  pose proof (lstrip_head _ _ _ Hl) as Ha.
  destruct (rstrip_head a t Ha) as [t' ->]. simpl.
  by intros <-%bool_decide_eq_true.
Qed.

(** X4: the name [safe_save_path] builds the path from is never empty and
    has no white space at its start or at its end; trimming it again, or
    resolving it again, changes nothing. *)
Theorem resolved_name_trimmed base_name :
  resolved_name base_name ≠ ""
  ∧ (∀ c, Str.startswith c (resolved_name base_name) = true →
          Str.isspace c = false)
  ∧ (∀ c, Str.endswith c (resolved_name base_name) = true →
          Str.isspace c = false)
  ∧ Str.strip (resolved_name base_name) = resolved_name base_name
  ∧ resolved_name (resolved_name base_name) = resolved_name base_name.
Proof.
  assert (∀ c, Str.startswith c (resolved_name base_name) = true →
               Str.isspace c = false) as Hfirst.
  { intros c. unfold resolved_name.
    destruct (Str.strip base_name) as [|a s] eqn:Hs.
    - simpl. by intros <-%bool_decide_eq_true.
    - change (Str.or_else (String a s) default_name) with (String a s).
      rewrite <- Hs. apply (proj1 (strip_trimmed base_name)). }
  assert (∀ c, Str.endswith c (resolved_name base_name) = true →
               Str.isspace c = false) as Hlast.
  { intros c. unfold resolved_name.
    destruct (Str.strip base_name) as [|a s] eqn:Hs.
    - simpl. by intros <-%bool_decide_eq_true.
    - change (Str.or_else (String a s) default_name) with (String a s).
      rewrite <- Hs. apply (proj2 (strip_trimmed base_name)). }
  assert (Str.strip (resolved_name base_name) = resolved_name base_name)
    as Hstrip.
  { unfold Str.strip. rewrite (lstrip_fixed _ Hfirst). by apply rstrip_fixed. }
  split; [apply resolved_name_nonempty|]. do 3 (split; [done|]).
  unfold resolved_name at 1. rewrite Hstrip.
  pose proof (resolved_name_nonempty base_name).
  by destruct (resolved_name base_name).
Qed.

(** X2: for an extension made of a dot and a stretch without dot or slash
    (as [".mp4"]) and a name whose last path component has a character
    other than the dot, the result always carries the extension: it is
    [desktop/name.ext] when that does not exist, and otherwise
    [desktop/name-k.ext] for the least [k] from 1 on that does not exist. *)
Theorem ordinary_name_keeps_extension desktop (fs : gset string) base_name x :
  let extension := String Path.extsep x in
  let stem := Path.join desktop (resolved_name base_name) in
  let p := safe_save_path desktop fs base_name extension in
  Path.extsep ∉ Str.chars x → Path.sep ∉ Str.chars x →
  existsb (λ c, bool_decide (c ≠ Path.extsep)) (Str.chars (Path.basename stem))
  = true →
  ((stem +:+ extension ∉ fs) ∧ p = stem +:+ extension)
  ∨ (stem +:+ extension ∈ fs
     ∧ ∃ k, (1 ≤ k)%Z
            ∧ p = stem +:+ "-" +:+ pretty k +:+ extension
            ∧ (p ∉ fs)
            ∧ ∀ j, (1 ≤ j < k)%Z →
                   stem +:+ "-" +:+ pretty j +:+ extension ∈ fs).
Proof.
  intros extension stem p Hdot Hsep Hname.
  destruct (safe_save_path_numbered_before_extension
              desktop fs base_name x Hdot Hsep Hname) as [Hcand Hnum].
  fold extension stem in Hcand, Hnum.
  pose proof (safe_save_path_first_free desktop fs base_name extension)
    as [Hfresh _]. fold p in Hfresh.
  destruct (decide (stem +:+ extension ∈ fs)) as [Hin|Hout].
  - right. split; [done|].
    destruct (Hnum Hin) as (k & Hk & Hp & Hbelow). fold p in Hp.
    exists k. by rewrite <- Hp.
  - left. split; [done|]. unfold p, safe_save_path, safe_save_path_fuel.
    rewrite Hcand. destruct (Path.splitext _). simpl.
    by rewrite decide_False.
Qed.

Lemma ordinary_name_keeps_extension_witness :
  let p := safe_save_path "/Users/me/Desktop"
             {["/Users/me/Desktop/Song.mp4"]} "Song" ".mp4" in
  ((("/Users/me/Desktop/Song" +:+ ".mp4")
      ∉ ({["/Users/me/Desktop/Song.mp4"]} : gset string))
   ∧ p = "/Users/me/Desktop/Song" +:+ ".mp4")
  ∨ ("/Users/me/Desktop/Song" +:+ ".mp4"
       ∈ ({["/Users/me/Desktop/Song.mp4"]} : gset string)
     ∧ ∃ k, (1 ≤ k)%Z
            ∧ p = "/Users/me/Desktop/Song" +:+ "-" +:+ pretty k +:+ ".mp4"
            ∧ (p ∉ ({["/Users/me/Desktop/Song.mp4"]} : gset string))
            ∧ ∀ j, (1 ≤ j < k)%Z →
                   "/Users/me/Desktop/Song" +:+ "-" +:+ pretty j +:+ ".mp4"
                   ∈ ({["/Users/me/Desktop/Song.mp4"]} : gset string)).
Proof.
  apply (ordinary_name_keeps_extension "/Users/me/Desktop"
           {["/Users/me/Desktop/Song.mp4"]} "Song" "mp4").
  - intros H. vm_compute in H.
    repeat (apply elem_of_cons in H as [H|H]; [discriminate H|]).
    by apply elem_of_nil in H.
  - intros H. vm_compute in H.
    repeat (apply elem_of_cons in H as [H|H]; [discriminate H|]).
    by apply elem_of_nil in H.
  - reflexivity.
Defined.

(** ** The file picker *)

(** X5: [pick_files] shows one dialog and always hands a list back to its
    caller.  With [allow_multiple] the list is the answer of the dialog;
    without, it holds the one chosen path, or nothing when the answer is
    empty, so it never holds an empty path.  An empty list is announced by
    the line "Cancelled by user." and nothing else; a list that is not
    empty by a line with the number of files and one line for each file,
    in the order of the list, with the base name of the file. *)
Theorem pick_files_spec e title allow_multiple :
  ∃ paths tr,
    pick_files e title allow_multiple
    = (Next paths, Dialog title allow_multiple :: tr)
    ∧ (allow_multiple = true → paths = askopenfilenames e)
    ∧ (allow_multiple = false →
       (length paths ≤ 1)%nat ∧ ("" ∉ paths)
       ∧ ∀ p, p ∈ paths ↔ p = askopenfilename e ∧ p ≠ "")
    ∧ (paths = [] ↔ tr = [Print [Txt "Cancelled by user."]])
    ∧ (paths ≠ [] →
       tr = Print [Txt ("Selected " +:+ pretty (length paths)
                        +:+ " file(s):")]
            :: ((λ p, Print [Txt ("  â€¢ " +:+ Path.basename p)]) <$> paths)).
Proof.
  rewrite pick_files_run. unfold pick_trace.
  exists (picked e allow_multiple). eexists. split; [reflexivity|].
  split; [by intros ->|]. split.
  - intros ->. unfold picked. destruct (askopenfilename e) as [|a s].
    + split; [simpl; lia|]. split; [apply not_elem_of_nil|].
      intros p. split; [by intros ?%elem_of_nil|]. by intros [-> ?].
    + split; [simpl; lia|]. split.
      * by intros [=]%list_elem_of_singleton.
      * intros p. rewrite list_elem_of_singleton. split; [by intros ->|].
        by intros [-> _].
  - destruct (picked e allow_multiple) as [|p paths]; [done|].
    split; [|done]. split; [done|]. by intros [= ? ?].
Qed.

(** ** The loading loop *)

(** X6: the loading loop either opens every chosen file, and then the clips
    are the chosen paths in their order, numbered from 0, with the
    durations the media library reports, the total is their durations
    (zero for a falsy one) added one after the other as floats, and nothing
    but the opening of the clips happened; or it
    stops at the first path that fails: the paths before it were opened,
    none after it was tried, the failure is printed with the base name of
    the file, and [main] returns. *)
Theorem load_videos_spec e video_paths :
  match load_videos e video_paths [] Float.zero with
  | (Next (clips, total_dur), tr) =>
      clip_path <$> clips = video_paths
      ∧ (∀ (i : nat) c, clips !! i = Some c →
           clip_index c = i
           ∧ VideoFileClip e (clip_path c) = inr (clip_duration c))
      ∧ total_dur = total_duration clips
      ∧ total_dur
        = foldl Float.add Float.zero (or0 <$> (clip_duration <$> clips))
      ∧ tr = opens clips
  | (Return o, tr) =>
      o = LoadError
      ∧ ∃ clips p exn rest,
          video_paths = (clip_path <$> clips) ++ p :: rest
          ∧ VideoFileClip e p = inl exn
          ∧ (∀ c, c ∈ clips →
               VideoFileClip e (clip_path c) = inr (clip_duration c))
          ∧ tr = opens clips ++ [Print (video_error p exn)]
  end.
Proof.
  rewrite load_videos_run. simpl length.
  pose proof (load_result_paths e 0 video_paths) as Hpaths.
  pose proof (load_result_clips e 0 video_paths) as Hclips.
  destruct (load_result e 0 video_paths) as [clips [[p exn]|]]; simpl in *.
  - split; [done|]. destruct Hpaths as [Hp [rest Hrest]].
    exists clips, p, exn, rest. split; [done|]. split; [done|]. split; [|done].
    intros c [i Hi]%list_elem_of_lookup. by apply Hclips in Hi as (_ & _ & ?).
  - split; [done|]. split.
    + intros i c Hi. by apply Hclips in Hi as (? & _ & ?).
    + done.
Qed.

(** ** Reading the traces, for any reader *)

Section Readers.
Context {C : Type} (f : event → option C).
Hypothesis f_print : ∀ l, f (Print l) = None.
Hypothesis f_dialog : ∀ t m, f (Dialog t m) = None.
Hypothesis f_input : ∀ p a, f (Input p a) = None.

Lemma omap_header : omap f header = [].
Proof. unfold header. csimpl. by rewrite !f_print. Qed.

Lemma omap_confirmation e : omap f (confirmation e) = [].
Proof.
  unfold confirmation.
  rewrite !omap_app, omap_header, omap_pick_trace by done.
  csimpl. by rewrite f_input.
Qed.

Lemma omap_loading e clips :
  omap f (loading e clips) = omap f (opens clips).
Proof.
  unfold loading. rewrite !omap_app, omap_confirmation. csimpl.
  by rewrite f_print.
Qed.

Lemma omap_naming e clips d :
  omap f (naming e clips d) = omap f [Open (AudioHandle (askopenfilename e))].
Proof.
  unfold naming. rewrite !omap_app, omap_pick_trace by done.
  csimpl. rewrite !f_print, f_input.
  by destruct (f (Open (AudioHandle (askopenfilename e)))).
Qed.

Lemma omap_preparation e clips d loops :
  omap f (preparation e clips d loops)
  = omap f [Open (AudioHandle (askopenfilename e))].
Proof.
  unfold preparation. rewrite !omap_app, omap_naming.
  csimpl. rewrite !f_print.
  destruct (f (Open (AudioHandle (askopenfilename e))));
    destruct (1 <? loops)%Z; csimpl; by rewrite ?f_print.
Qed.

End Readers.

Lemma closed_pick_trace title multiple paths :
  closed (pick_trace title multiple paths) = [].
Proof. by apply omap_pick_trace. Qed.

Lemma closed_confirmation e : closed (confirmation e) = [].
Proof. by apply omap_confirmation. Qed.

Lemma opened_confirmation e : opened (confirmation e) = [].
Proof. by apply omap_confirmation. Qed.

Lemma exports_confirmation e : exports (confirmation e) = [].
Proof. by apply omap_confirmation. Qed.

Lemma closed_naming e clips d : closed (naming e clips d) = [].
Proof. unfold closed. by rewrite omap_naming. Qed.

Lemma exports_naming e clips d : exports (naming e clips d) = [].
Proof. unfold exports. by rewrite omap_naming. Qed.

Lemma exported_naming e clips d : exported (naming e clips d) = [].
Proof. unfold exported. by rewrite omap_naming. Qed.

Lemma previews_naming e clips d : previews (naming e clips d) = [].
Proof. unfold previews. by rewrite omap_naming. Qed.

Lemma opened_naming e clips d :
  opened (naming e clips d) = [AudioHandle (askopenfilename e)].
Proof. unfold opened. by rewrite omap_naming. Qed.

Lemma exported_loading e clips : exported (loading e clips) = [].
Proof.
  unfold exported. rewrite omap_loading by done. by apply omap_fmap_None.
Qed.

Lemma exported_preparation e clips d loops :
  exported (preparation e clips d loops) = [].
Proof. unfold exported. by rewrite omap_preparation. Qed.

Lemma previews_loading e clips : previews (loading e clips) = [].
Proof.
  unfold previews. rewrite omap_loading by done. by apply omap_fmap_None.
Qed.

Lemma previews_preparation e clips d loops :
  previews (preparation e clips d loops) = [].
Proof. unfold previews. by rewrite omap_preparation. Qed.

Lemma exports_closes clips : exports (closes clips) = [].
Proof. by apply omap_fmap_None. Qed.

Lemma exported_closes clips : exported (closes clips) = [].
Proof. by apply omap_fmap_None. Qed.

Lemma previews_closes clips : previews (closes clips) = [].
Proof. by apply omap_fmap_None. Qed.

Lemma exported_app tr1 tr2 :
  exported (tr1 ++ tr2) = exported tr1 ++ exported tr2.
Proof. apply omap_app. Qed.

Lemma previews_app tr1 tr2 :
  previews (tr1 ++ tr2) = previews tr1 ++ previews tr2.
Proof. apply omap_app. Qed.

(** ** Media handles on every way through [main] *)

(** X8: on a run that reaches the end of [main], the handles that were
    closed are the handles that were opened, in the same order (the clips
    in the order of the selection, then the audio); nothing is left open,
    the two composed clips are closed after them, and the export that was
    made is the one export of the run, to the resolved path. *)
Theorem success_cleanup e :
  (run e).1 = Success →
  closed (run e).2 = opened (run e).2
  ∧ leaked (run e).2 = []
  ∧ (∃ clips, clip_path <$> clips = askopenfilenames e
      ∧ opened (run e).2
        = (VideoHandle <$> clips) ++ [AudioHandle (askopenfilename e)])
  ∧ (∃ before, (run e).2
       = before ++ [Close (AudioHandle (askopenfilename e)); CloseFinalVideo;
                    CloseFinal;
                    Print [Txt (nl +:+ "Done! Your music video is on Desktop.")]])
  ∧ exports (run e).2 = [(output_path e, true)].
Proof.
  intros Ho. pose proof (run_path e) as H.
  destruct (run e) as [o tr]. simpl in *. subst o.
  inversion H as [| | | | | | | | | |a clips d name loops ? ? ? Hload]; subst.
  assert (opened (loading e clips ++ preparation e clips d loops
     ++ [Export (build_sequence clips loops (or0 d)) (askopenfilename e)
           (output_path e) true;
         Print [Txt (nl +:+ "Export complete!")];
         Preview (shlex_quote (output_path e))]
     ++ closes clips
     ++ [Close (AudioHandle (askopenfilename e)); CloseFinalVideo; CloseFinal;
         Print [Txt (nl +:+ "Done! Your music video is on Desktop.")]])
    = (VideoHandle <$> clips) ++ [AudioHandle (askopenfilename e)]) as Hopened.
  { rewrite !opened_app, opened_loading, opened_preparation, opened_closes.
    simpl. by rewrite ?app_nil_r. }
  assert (closed (loading e clips ++ preparation e clips d loops
     ++ [Export (build_sequence clips loops (or0 d)) (askopenfilename e)
           (output_path e) true;
         Print [Txt (nl +:+ "Export complete!")];
         Preview (shlex_quote (output_path e))]
     ++ closes clips
     ++ [Close (AudioHandle (askopenfilename e)); CloseFinalVideo; CloseFinal;
         Print [Txt (nl +:+ "Done! Your music video is on Desktop.")]])
    = (VideoHandle <$> clips) ++ [AudioHandle (askopenfilename e)]) as Hclosed.
  { by rewrite !closed_app, closed_loading, closed_preparation, closed_closes. }
  split; [by rewrite Hopened, Hclosed|]. split.
  - unfold leaked. rewrite Hopened, Hclosed. apply filter_none.
    intros h Hh Hnot. by apply Hnot.
  - split.
    + exists clips. split; [|done].
      pose proof (load_result_paths e 0 (askopenfilenames e)) as Hp.
      by rewrite Hload in Hp.
    + split.
      * eexists. rewrite !app_assoc. reflexivity.
      * by rewrite !exports_app, exports_loading, exports_preparation,
          exports_closes.
Qed.

Lemma success_cleanup_witness :
  closed (run env_success).2 = opened (run env_success).2.
Proof. apply (success_cleanup env_success). reflexivity. Defined.

(** X9: on every other way out of [main] nothing is closed: whatever the
    run opened before it returned (the clips loaded before a video failed,
    before the content was found empty, before the audio dialog was
    cancelled or the audio failed, and clips and audio before a failed
    export or an exception that leaves [main]) is left open. *)
Theorem early_return_closes_nothing e :
  (run e).1 ≠ Success →
  closed (run e).2 = [] ∧ leaked (run e).2 = opened (run e).2.
Proof.
  intros Ho.
  assert (closed (run e).2 = []) as Hclosed.
  { pose proof (run_path e) as H.
    destruct (run e) as [o tr]. simpl in *.
    destruct H; try done.
    - apply closed_confirmation.
    - apply closed_confirmation.
    - by rewrite closed_app, closed_loading.
    - by rewrite closed_app, closed_loading.
    - by rewrite !closed_app, closed_loading, closed_pick_trace.
    - by rewrite !closed_app, closed_loading, closed_pick_trace.
    - by rewrite !closed_app, closed_loading, closed_naming.
    - by rewrite !closed_app, closed_loading, closed_naming.
    - by rewrite !closed_app, closed_loading, closed_preparation. }
  split; [done|]. unfold leaked. rewrite Hclosed. apply filter_all.
  intros h _. apply not_elem_of_nil.
Qed.

Lemma early_return_closes_nothing_witness :
  leaked (run env_video_error).2
  = [VideoHandle (Clip 0 "/v/a.mp4" (Float.of_Z 10))].
Proof.
  destruct (early_return_closes_nothing env_video_error) as [_ ->].
  - discriminate.
  - reflexivity.
Defined.

(** ** What a run exports *)

Lemma fmap_list_mul {A B} (g : A → B) (l : list A) (n : Z) :
  g <$> list_mul l n = list_mul (g <$> l) n.
Proof.
  unfold list_mul. induction (Z.to_nat n) as [|m IH]; [done|].
  simpl. by rewrite fmap_app, IH.
Qed.

Lemma build_sequence_clips clips loops T :
  video_clips (build_sequence clips loops T) = list_mul clips loops.
Proof. unfold build_sequence. by destruct (Float.ltb _ _). Qed.

Lemma output_path_fresh e : output_path e ∉ disk e.
Proof. apply safe_save_path_first_free. Qed.

(** X10: a run calls [write_videofile] at most once, and only with the
    path that [safe_save_path] resolved, which does not exist on the disk
    the run started with: no existing file is written over.  The run ends
    in success when the call returns and in an export error when it
    raises. *)
Theorem export_never_overwrites e :
  (length (exports (run e).2) ≤ 1)%nat
  ∧ ∀ path (ok : bool), (path, ok) ∈ exports (run e).2 →
      path = output_path e
      ∧ (path ∉ disk e)
      ∧ (run e).1 = (if ok then Success else ExportError)
      ∧ (ok = true ↔ write_videofile e path = None).
Proof.
  pose proof (run_path e) as H. pose proof (output_path_fresh e) as Hfresh.
  destruct (run e) as [o tr]. simpl in *.
  destruct H as [| | | | | | | |
                |a clips d name loops exn ? ? ? ? ? ? ? ? ? Hw
                |a clips d name loops ? ? ? ? ? ? ? ? ? Hw].
  - split; [simpl; lia|]. by intros ? ? ?%elem_of_nil.
  - rewrite exports_confirmation. split; [simpl; lia|].
    by intros ? ? ?%elem_of_nil.
  - rewrite exports_confirmation. split; [simpl; lia|].
    by intros ? ? ?%elem_of_nil.
  - rewrite exports_app, exports_loading. split; [simpl; lia|].
    by intros ? ? ?%elem_of_nil.
  - rewrite exports_app, exports_loading. split; [simpl; lia|].
    by intros ? ? ?%elem_of_nil.
  - rewrite !exports_app, exports_loading, exports_pick_trace.
    split; [simpl; lia|]. by intros ? ? ?%elem_of_nil.
  - rewrite !exports_app, exports_loading, exports_pick_trace.
    split; [simpl; lia|]. by intros ? ? ?%elem_of_nil.
  - rewrite !exports_app, exports_loading, exports_naming.
    split; [simpl; lia|]. by intros ? ? ?%elem_of_nil.
  - rewrite !exports_app, exports_loading, exports_naming.
    split; [simpl; lia|]. by intros ? ? ?%elem_of_nil.
  - rewrite !exports_app, exports_loading, exports_preparation.
    split; [simpl; lia|]. simpl.
    intros path ok [= -> ->]%list_elem_of_singleton.
    split; [done|]. split; [done|]. split; [done|]. rewrite Hw. by split.
  - rewrite !exports_app, exports_loading, exports_preparation, exports_closes.
    split; [simpl; lia|]. simpl.
    intros path ok [= -> ->]%list_elem_of_singleton.
    split; [done|]. split; [done|]. split; [done|]. by rewrite Hw.
Qed.

(** X12: what a run hands to [write_videofile] is the chosen audio, the
    resolved path, and a video whose clips are the chosen video files in
    the order of the selection, repeated a whole number of times, at least
    once. *)
Theorem export_keeps_selection_order e :
  (length (exported (run e).2) ≤ 1)%nat
  ∧ ∀ v audio path (ok : bool), (v, audio, path, ok) ∈ exported (run e).2 →
      audio = askopenfilename e
      ∧ path = output_path e
      ∧ ∃ loops, (1 ≤ loops)%Z
          ∧ clip_path <$> video_clips v
            = mjoin (replicate (Z.to_nat loops) (askopenfilenames e)).
Proof.
  pose proof (run_path e) as H.
  destruct (run e) as [o tr]. simpl in *.
  assert (∀ clips d loops v audio path (ok ok' : bool),
    load_result e 0 (askopenfilenames e) = (clips, None) →
    loop_count (or0 d) (total_duration clips) = inr loops →
    (v, audio, path, ok)
    ∈ [(build_sequence clips loops (or0 d), askopenfilename e,
        output_path e, ok')] →
    audio = askopenfilename e
    ∧ path = output_path e
    ∧ ∃ loops, (1 ≤ loops)%Z
        ∧ clip_path <$> video_clips v
          = mjoin (replicate (Z.to_nat loops) (askopenfilenames e)))
    as Hexport.
  { intros clips d loops v audio path ok ok' Hload Hloops
      [= -> -> -> _]%list_elem_of_singleton.
    split; [done|]. split; [done|].
    exists loops. split; [by eapply loop_count_positive|].
    rewrite build_sequence_clips, fmap_list_mul.
    pose proof (load_result_paths e 0 (askopenfilenames e)) as Hp.
    rewrite Hload in Hp. by rewrite Hp. }
  destruct H as [| | | | | | | | |a clips d name loops exn
                |a clips d name loops].
  - split; [simpl; lia|]. by intros ? ? ? ? ?%elem_of_nil.
  - unfold exported. rewrite omap_confirmation by done.
    split; [simpl; lia|]. by intros ? ? ? ? ?%elem_of_nil.
  - unfold exported. rewrite omap_confirmation by done.
    split; [simpl; lia|]. by intros ? ? ? ? ?%elem_of_nil.
  - rewrite exported_app, exported_loading. split; [simpl; lia|].
    by intros ? ? ? ? ?%elem_of_nil.
  - rewrite exported_app, exported_loading. split; [simpl; lia|].
    by intros ? ? ? ? ?%elem_of_nil.
  - rewrite !exported_app, exported_loading. unfold exported at 2.
    rewrite omap_pick_trace by done. split; [simpl; lia|].
    by intros ? ? ? ? ?%elem_of_nil.
  - rewrite !exported_app, exported_loading. unfold exported at 2.
    rewrite omap_pick_trace by done. split; [simpl; lia|].
    by intros ? ? ? ? ?%elem_of_nil.
  - rewrite !exported_app, exported_loading, exported_naming.
    split; [simpl; lia|]. by intros ? ? ? ? ?%elem_of_nil.
  - rewrite !exported_app, exported_loading, exported_naming.
    split; [simpl; lia|]. by intros ? ? ? ? ?%elem_of_nil.
  - rewrite !exported_app, exported_loading, exported_preparation.
    split; [simpl; lia|]. simpl. intros v audio path ok Hin.
    by eapply Hexport.
  - rewrite !exported_app, exported_loading, exported_preparation,
      exported_closes.
    split; [simpl; lia|]. simpl. intros v audio path ok Hin.
    by eapply Hexport.
Qed.

(** ** Cancelling *)




(** ** The audio *)

(** X14: the audio file is opened only after every chosen video was
    loaded and the sum of their durations passed the test of line 94: it is
    not zero or less, so it is more than zero unless it is NaN; the handle
    is the one path of the audio dialog, which is not empty. *)
Theorem audio_opened_after_content e audio :
  AudioHandle audio ∈ opened (run e).2 →
  audio = askopenfilename e
  ∧ audio ≠ ""
  ∧ ∃ clips d,
      clip_path <$> clips = askopenfilenames e
      ∧ (∀ c, c ∈ clips → VideoFileClip e (clip_path c) = inr (clip_duration c))
      ∧ Float.leb (total_duration clips) Float.zero = false
      ∧ (Float.is_nan (total_duration clips) = false →
         Float.ltb Float.zero (total_duration clips) = true)
      ∧ AudioFileClip e audio = inr d.
Proof.
  pose proof (run_path e) as H.
  destruct (run e) as [o tr]. simpl in *.
  assert (∀ clips : list clip, AudioHandle audio ∉ VideoHandle <$> clips)
    as Hvideo.
  { intros clips (c & [=] & _)%list_elem_of_fmap. }
  assert (∀ (clips : list clip) (d : spec_float),
    load_result e 0 (askopenfilenames e) = (clips, None) →
    Float.leb (total_duration clips) Float.zero = false →
    askopenfilename e ≠ "" →
    AudioFileClip e (askopenfilename e) = inr d →
    AudioHandle audio
    ∈ (VideoHandle <$> clips) ++ [AudioHandle (askopenfilename e)] →
    audio = askopenfilename e
    ∧ audio ≠ ""
    ∧ ∃ clips d,
        clip_path <$> clips = askopenfilenames e
        ∧ (∀ c, c ∈ clips →
             VideoFileClip e (clip_path c) = inr (clip_duration c))
        ∧ Float.leb (total_duration clips) Float.zero = false
        ∧ (Float.is_nan (total_duration clips) = false →
           Float.ltb Float.zero (total_duration clips) = true)
        ∧ AudioFileClip e audio = inr d) as Hopen.
  { intros clips d Hload Htotal Hpath Haudio
      [?%Hvideo|[= ->]%list_elem_of_singleton]%elem_of_app; [done|].
    split; [done|]. split; [done|]. exists clips, d.
    pose proof (load_result_paths e 0 (askopenfilenames e)) as Hp.
    pose proof (load_result_clips e 0 (askopenfilenames e)) as Hc.
    rewrite Hload in Hp, Hc. simpl in Hc.
    split; [done|]. split.
    - intros c [i Hi]%list_elem_of_lookup. by apply Hc in Hi as (_ & _ & ?).
    - split; [done|]. split; [|done].
      by apply leb_zero_false in Htotal as [_ ?]. }
  destruct H as [| | | | | | |a clips d|a clips d name exn
                |a clips d name loops exn|a clips d name loops].
  - by intros ?%elem_of_nil.
  - rewrite opened_confirmation. by intros ?%elem_of_nil.
  - rewrite opened_confirmation. by intros ?%elem_of_nil.
  - rewrite opened_app, opened_loading. simpl. rewrite app_nil_r.
    by intros ?%Hvideo.
  - rewrite opened_app, opened_loading. simpl. rewrite app_nil_r.
    by intros ?%Hvideo.
  - rewrite !opened_app, opened_loading. unfold opened at 2.
    rewrite omap_pick_trace by done. simpl. rewrite app_nil_r.
    by intros ?%Hvideo.
  - rewrite !opened_app, opened_loading. unfold opened at 2.
    rewrite omap_pick_trace by done. simpl. rewrite app_nil_r.
    by intros ?%Hvideo.
  - rewrite !opened_app, opened_loading, opened_naming.
    by eapply Hopen.
  - rewrite !opened_app, opened_loading, opened_naming. simpl.
    by eapply Hopen.
  - rewrite !opened_app, opened_loading, opened_preparation. simpl.
    by eapply Hopen.
  - rewrite !opened_app, opened_loading, opened_preparation, opened_closes.
    simpl. by eapply Hopen.
Qed.

Lemma audio_opened_after_content_witness :
  "/m/song.mp3" = askopenfilename env_success.
Proof.
  apply (audio_opened_after_content env_success "/m/song.mp3").
  vm_compute. do 2 right. left.
Defined.

(** ** The preview *)

Lemma chars_app s t : Str.chars (s +:+ t) = Str.chars s ++ Str.chars t.
Proof.
  induction s as [|a s IH]; [done|]. rewrite str_app_cons. simpl.
  by rewrite IH.
Qed.

Lemma shlex_escape_length s :
  (String.length s ≤ String.length (shlex_escape s))%nat.
Proof.
  induction s as [|a s IH]; [done|]. cbn [shlex_escape].
  rewrite str_length_app. case_bool_decide; simpl; lia.
Qed.

(** [shlex.quote] leaves a string as it is just when the string is not
    empty and all its characters are safe. *)
Lemma shlex_quote_fixed s :
  shlex_quote s = s ↔ s ≠ "" ∧ forallb shlex_safe (Str.chars s) = true.
Proof.
  destruct s as [|a s]; [split; [done|by intros [? _]]|].
  unfold shlex_quote.
  destruct (forallb shlex_safe (Str.chars (String a s))) eqn:Hsafe.
  - split; [done|reflexivity].
  - split; [|by intros [_ ?]]. intros Heq.
    apply (f_equal String.length) in Heq.
    rewrite !str_length_app in Heq.
    pose proof (shlex_escape_length (String a s)). simpl in *. lia.
Qed.

Lemma endswith_app c s t :
  t ≠ "" → Str.endswith c (s +:+ t) = Str.endswith c t.
Proof.
  intros Ht. induction s as [|a s IH]; [done|].
  rewrite str_app_cons. simpl.
  destruct (s +:+ t) eqn:Hst; [|done].
  destruct s; [by rewrite str_app_nil_l in Hst|discriminate].
Qed.

Lemma lstrip_suggestion X :
  ∃ Z, Str.lstrip (X +:+ " music video") = Z +:+ "music video".
Proof.
  induction X as [|a X IH].
  - by exists "".
  - rewrite str_app_cons. simpl. destruct (Str.isspace a); [done|].
    exists (String a X +:+ " "). by rewrite str_app_assoc.
Qed.

Lemma strip_suggestion X :
  ∃ Z, Str.strip (X +:+ " music video") = Z +:+ "music video".
Proof.
  destruct (lstrip_suggestion X) as [Z HZ]. exists Z.
  unfold Str.strip. rewrite HZ. apply rstrip_fixed.
  intros c. rewrite endswith_app by done. simpl.
  by intros <-%bool_decide_eq_true.
Qed.

Lemma join_chars a b c :
  c ∈ Str.chars b → c ∈ Str.chars (Path.join a b).
Proof.
  intros Hc. unfold Path.join. destruct (Str.startswith Path.sep b); [done|].
  destruct (_ || _); rewrite chars_app, elem_of_app; right; [done|].
  simpl. by right.
Qed.

(** The resolved path holds every character of the first candidate. *)
Lemma safe_save_path_chars desktop (fs : gset string) base_name extension c :
  c ∈ Str.chars (first_candidate desktop base_name extension) →
  c ∈ Str.chars (safe_save_path desktop fs base_name extension).
Proof.
  intros Hc.
  pose proof (safe_save_path_first_free desktop fs base_name extension)
    as [_ Hnum]. cbv zeta in Hnum.
  pose proof (splitext_join (first_candidate desktop base_name extension))
    as Hjoin.
  destruct (decide (first_candidate desktop base_name extension ∈ fs))
    as [Hin|Hout].
  - destruct (Hnum Hin) as (k & _ & -> & _). rewrite <- Hjoin in Hc.
    unfold numbered. rewrite chars_app, elem_of_app in Hc.
    rewrite !chars_app, !elem_of_app. tauto.
  - unfold safe_save_path, safe_save_path_fuel.
    destruct (Path.splitext _). simpl. by rewrite decide_False.
Qed.

(** X13: the preview utility is started on the success path only, once, and
    its argument is [shlex.quote(output_path)].  That is the output path
    itself just when all characters of the path are safe for a shell; when
    the user keeps the suggested name, which holds a space, the argument is
    the path wrapped in quotes and not the path. *)
Theorem preview_argument e :
  ((run e).1 = Success → previews (run e).2 = [shlex_quote (output_path e)])
  ∧ ((run e).1 ≠ Success → previews (run e).2 = [])
  ∧ (shlex_quote (output_path e) = output_path e
     ↔ output_path e ≠ ""
       ∧ forallb shlex_safe (Str.chars (output_path e)) = true)
  ∧ (Str.strip <$> name_answer e = Some "" →
     shlex_quote (output_path e) ≠ output_path e).
Proof.
  split; [|split; [|split; [apply shlex_quote_fixed|]]].
  - intros Ho. pose proof (run_path e) as H.
    destruct (run e) as [o tr]. simpl in *. subst o.
    inversion H; subst.
    by rewrite !previews_app, previews_loading, previews_preparation,
      previews_closes.
  - intros Ho. pose proof (run_path e) as H.
    destruct (run e) as [o tr]. simpl in *.
    destruct H; try done.
    + unfold previews. by apply omap_confirmation.
    + unfold previews. by apply omap_confirmation.
    + by rewrite previews_app, previews_loading.
    + by rewrite previews_app, previews_loading.
    + rewrite !previews_app, previews_loading. unfold previews at 2.
      by rewrite omap_pick_trace.
    + rewrite !previews_app, previews_loading. unfold previews at 2.
      by rewrite omap_pick_trace.
    + by rewrite !previews_app, previews_loading, previews_naming.
    + by rewrite !previews_app, previews_loading, previews_naming.
    + by rewrite !previews_app, previews_loading, previews_preparation.
  - intros Hdefault [_ Hsafe]%shlex_quote_fixed.
    assert (" "%char ∈ Str.chars (output_path e)) as Hspace.
    { unfold output_path.
      destruct (name_answer e) as [name|]; [|done].
      injection Hdefault as Hdefault.
      change (default "" (Some name)) with name.
      rewrite Hdefault. simpl Str.or_else.
      apply safe_save_path_chars. unfold first_candidate.
      apply join_chars. rewrite chars_app, elem_of_app. left.
      unfold resolved_name, suggested_name.
      destruct (strip_suggestion
                  (Path.splitext (Path.basename (askopenfilename e))).1)
        as [Z ->].
      assert (Str.or_else (Z +:+ "music video") default_name
              = Z +:+ "music video") as ->.
      { destruct Z; [done|]. by rewrite str_app_cons. }
      rewrite chars_app, elem_of_app. right. simpl.
      do 5 right. left. }
    rewrite forallb_forall in Hsafe.
    apply list_elem_of_In, Hsafe in Hspace. done.
Qed.
